(** * git-preflight: trigger matching, validation and orchestration

    A shallow embedding of [cmd/git-preflight/git-preflight.go] and of the
    Go standard-library functions it calls ([path.Match], [path.Base],
    [strings.Contains], [strings.ContainsAny], [sort.Strings],
    [utf8.DecodeRuneInString]).

    Go strings are byte sequences: they are modelled by [string], whose
    characters ([ascii]) are exactly the 256 byte values.  Runes are [N].
    Go's multiple return values are tuples, an [error] that may be nil is
    an [option error]. *)

From Stdlib Require Import NArith Ascii String List Sorting.Sorted Permutation Lia.
From stdpp Require Import base option list gmap strings sorting.

Local Open Scope string_scope.
Local Open Scope list_scope.

(** ** Errors

    The program builds its errors with [fmt.Errorf]; the embedding keeps
    one constructor per format string, carrying the formatted operands. *)
Inductive error : Type :=
  | ErrBadPattern                                   (* path.ErrBadPattern *)
  | ErrDuplicateName (name : string)                (* duplicate trigger name: %s *)
  | ErrEmptyName                                    (* empty trigger name *)
  | ErrWhitespaceName (name : string)               (* invalid trigger name containing whitespace: %q *)
  | ErrInputType (ty name : string)                 (* invalid trigger input type %q for trigger %s *)
  | ErrIncludePattern (pat name : string) (e : error)   (* invalid include pattern %q for trigger %s: %v *)
  | ErrExcludePattern (pat name : string) (e : error)   (* invalid exclude pattern %q for trigger %s: %v *)
  | ErrNoSuchTrigger (name : string)                (* no such trigger: %q *)
  | ErrRunInputType (ty name : string).             (* invalid input type %q for trigger %q *)

(** ** Byte-string primitives *)
Module GoString.

Definition len (s : string) : nat := String.length s.

(** [s[n:]] *)
Fixpoint drop (n : nat) (s : string) : string :=
  match n, s with
  | O, _ => s
  | S n', String _ s' => drop n' s'
  | S _, EmptyString => EmptyString
  end.

(** [s[:n]] *)
Definition take (n : nat) (s : string) : string := String.substring 0 n s.

(** [s[i]] as a number; every use below is in range. *)
Definition byte_at (i : nat) (s : string) : N :=
  match String.get i s with
  | Some c => N_of_ascii c
  | None => 0%N
  end.

Definition is_byte (c d : ascii) : bool := Ascii.eqb c d.

Definition is_empty (s : string) : bool :=
  match s with EmptyString => true | String _ _ => false end.

(** [len(s) > 0 && s[0] == c] *)
Definition head_is (c : ascii) (s : string) : bool :=
  match s with EmptyString => false | String d _ => is_byte d c end.

(** [bytealg.IndexByteString(s, c) >= 0] *)
Fixpoint has_byte (c : ascii) (s : string) : bool :=
  match s with
  | EmptyString => false
  | String d s' => is_byte d c || has_byte c s'
  end.

(** [bytealg.LastIndexByteString(s, c)], [None] for -1. *)
Fixpoint LastIndexByteString (s : string) (c : ascii) : option nat :=
  match s with
  | EmptyString => None
  | String d s' =>
      match LastIndexByteString s' c with
      | Some i => Some (S i)
      | None => if is_byte d c then Some O else None
      end
  end.

End GoString.
Import GoString.

Definition slash : ascii := "/"%char.
Definition backslash : ascii := "092"%char.

(** ** [unicode/utf8] *)
Module utf8.

Definition rune := N.
Definition RuneError : rune := 0xFFFD%N.

Definition locb : N := 0x80%N.
Definition hicb : N := 0xBF%N.
Definition xx : N := 0xF1%N.
Definition as_ : N := 0xF0%N.
Definition s1 : N := 0x02%N.
Definition s2 : N := 0x13%N.
Definition s3 : N := 0x03%N.
Definition s4 : N := 0x23%N.
Definition s5 : N := 0x34%N.
Definition s6 : N := 0x04%N.
Definition s7 : N := 0x44%N.

(** The 256-entry table [first], by ranges of the leading byte. *)
Definition first (b : N) : N :=
  if (b <? 0x80)%N then as_
  else if (b <? 0xC2)%N then xx
  else if (b <? 0xE0)%N then s1
  else if (b =? 0xE0)%N then s2
  else if (b <? 0xED)%N then s3
  else if (b =? 0xED)%N then s4
  else if (b <? 0xF0)%N then s3
  else if (b =? 0xF0)%N then s5
  else if (b <? 0xF4)%N then s6
  else if (b =? 0xF4)%N then s7
  else xx.

(** [acceptRanges[i]] as a pair (lo, hi). *)
Definition acceptRanges (i : N) : N * N :=
  if (i =? 0)%N then (locb, hicb)
  else if (i =? 1)%N then (0xA0%N, hicb)
  else if (i =? 2)%N then (locb, 0x9F%N)
  else if (i =? 3)%N then (0x90%N, hicb)
  else if (i =? 4)%N then (locb, 0x8F%N)
  else (0%N, 0%N).

Definition DecodeRuneInString (s : string) : rune * nat :=
  let n := len s in
  if Nat.ltb n 1 then (RuneError, 0)
  else
    let s0 := byte_at 0 s in
    let x := first s0 in
    if (as_ <=? x)%N then
      (* mask := rune(x) << 31 >> 31 is all ones exactly when bit 0 of x
         is set;  rune(s[0])&^mask | RuneError&mask *)
      ((if N.testbit x 0 then RuneError else s0), 1)
    else
      let sz := N.to_nat (N.land x 7) in
      let accept := acceptRanges (N.shiftr x 4) in
      if Nat.ltb n sz then (RuneError, 1)
      else
        let b1 := byte_at 1 s in
        if ((b1 <? fst accept) || (snd accept <? b1))%N then (RuneError, 1)
        else if Nat.leb sz 2 then
          (N.lor (N.shiftl (N.land s0 0x1F) 6) (N.land b1 0x3F), 2)
        else
          let b2 := byte_at 2 s in
          if ((b2 <? locb) || (hicb <? b2))%N then (RuneError, 1)
          else if Nat.leb sz 3 then
            (N.lor (N.lor (N.shiftl (N.land s0 0x0F) 12)
                          (N.shiftl (N.land b1 0x3F) 6))
                   (N.land b2 0x3F), 3)
          else
            let b3 := byte_at 3 s in
            if ((b3 <? locb) || (hicb <? b3))%N then (RuneError, 1)
            else
              (N.lor (N.lor (N.lor (N.shiftl (N.land s0 0x07) 18)
                                   (N.shiftl (N.land b1 0x3F) 12))
                            (N.shiftl (N.land b2 0x3F) 6))
                     (N.land b3 0x3F), 4).

End utf8.

(** ** Package [path]: [Match] and [Base]

    Transcribed from the Go standard library ([path/match.go], [path/path.go],
    Go 1.16 and later, where [Match] checks the whole pattern for syntax
    errors).  Loops whose bound is not structural take a fuel argument and
    return [None] when it runs out; the wrappers supply enough fuel
    ([matchChunk_total], [Match_total]). *)
Module path.
Import utf8.

(** [getEsc] gets a possibly-escaped character from a range. *)
Definition getEsc (chunk : string) : rune * string * option error :=
  match chunk with
  | EmptyString => (0%N, EmptyString, Some ErrBadPattern)
  | String c rest =>
      if is_byte c "-" || is_byte c "]" then (0%N, EmptyString, Some ErrBadPattern)
      else
        let chunk1 := if is_byte c backslash then rest else chunk in
        if is_byte c backslash && is_empty chunk1 then
          (0%N, EmptyString, Some ErrBadPattern)
        else
          let '(r, n) := DecodeRuneInString chunk1 in
          let err := if (r =? RuneError)%N && Nat.eqb n 1
                     then Some ErrBadPattern else None in
          let nchunk := drop n chunk1 in
          let err := if is_empty nchunk then Some ErrBadPattern else err in
          (r, nchunk, err)
  end.

(** The loop [for { ... }] that parses all ranges of a character class.
    [inl err] is the error return of [matchChunk]; [inr] is the
    state (chunk, match) at [break]. *)
Fixpoint parse_ranges (fuel : nat) (chunk : string) (r : rune)
         (match_ : bool) (nrange : nat) : option (error + string * bool) :=
  match fuel with
  | O => None
  | S fuel' =>
      if head_is "]" chunk && Nat.ltb 0 nrange then Some (inr (drop 1 chunk, match_))
      else
        let '(lo, chunk, err) := getEsc chunk in
        match err with
        | Some e => Some (inl e)
        | None =>
            let hi := lo in
            let '(hi, chunk, err) :=
              if head_is "-" chunk then getEsc (drop 1 chunk) else (hi, chunk, None) in
            match err with
            | Some e => Some (inl e)
            | None =>
                let match_ := if (lo <=? r)%N && (r <=? hi)%N then true else match_ in
                parse_ranges fuel' chunk r match_ (S nrange)
            end
        end
  end.

(** The three places where [matchChunk] reads [s], each guarded by
    [if !failed]. *)

(** case '[':  [r, n = utf8.DecodeRuneInString(s); s = s[n:]] *)
Definition class_rune (failed : bool) (s : string) : rune * string :=
  if negb failed
  then let '(r, n) := DecodeRuneInString s in (r, drop n s)
  else (0%N, s).

(** case '?':  [if s[0] == '/' { failed = true }; s = s[n:]] *)
Definition any_step (failed : bool) (s : string) : string * bool :=
  if negb failed
  then
    let failed := if head_is slash s then true else failed in
    let '(_, n) := DecodeRuneInString s in (drop n s, failed)
  else (s, failed).

(** default:  [if chunk[0] != s[0] { failed = true }; s = s[1:]] *)
Definition literal_step (chunk : string) (failed : bool) (s : string) : string * bool :=
  if negb failed
  then (drop 1 s,
        if negb (N.eqb (byte_at 0 chunk) (byte_at 0 s)) then true else failed)
  else (s, failed).

(** possibly negated *)
Definition class_negated (chunk : string) : bool * string :=
  if head_is "^" chunk then (true, drop 1 chunk) else (false, chunk).

(** The main loop of [matchChunk], with the local [failed]. *)
Fixpoint matchChunk_loop (fuel : nat) (chunk s : string) (failed : bool)
  : option (string * bool * option error) :=
  match fuel with
  | O => None
  | S fuel' =>
      match chunk with
      | EmptyString =>
          if failed then Some (EmptyString, false, None) else Some (s, true, None)
      | String c rest =>
          let failed := if negb failed && is_empty s then true else failed in
          if is_byte c "[" then
            (* character class *)
            let '(r, s) := class_rune failed s in
            let '(negated, chunk) := class_negated rest in
            (* parse all ranges *)
            match parse_ranges fuel' chunk r false 0 with
            | None => None
            | Some (inl e) => Some (EmptyString, false, Some e)
            | Some (inr (chunk, match_)) =>
                let failed := if Bool.eqb match_ negated then true else failed in
                matchChunk_loop fuel' chunk s failed
            end
          else if is_byte c "?" then
            let '(s, failed) := any_step failed s in
            matchChunk_loop fuel' rest s failed
          else
            (* case backslash: drop it, fail on an empty rest, fall through *)
            let chunk := if is_byte c backslash then rest else chunk in
            if is_byte c backslash && is_empty chunk then
              Some (EmptyString, false, Some ErrBadPattern)
            else
              (* default *)
              let '(s, failed) := literal_step chunk failed s in
              matchChunk_loop fuel' (drop 1 chunk) s failed
      end
  end.

(** [matchChunk] checks whether [chunk] matches the beginning of [s]:
    (rest, ok, err). *)
Definition matchChunk (chunk s : string) : string * bool * option error :=
  match matchChunk_loop (S (len chunk)) chunk s false with
  | Some res => res
  | None => (EmptyString, false, None)
  end.

(** [for len(pattern) > 0 && pattern[0] == '*'] *)
Fixpoint scan_stars (pattern : string) (star : bool) : bool * string :=
  match pattern with
  | String c rest => if is_byte c "*" then scan_stars rest true else (star, pattern)
  | EmptyString => (star, pattern)
  end.

(** The [Scan] loop: the final value of [i], counted from [i]. *)
Fixpoint scan_index (pattern : string) (inrange : bool) (i : nat) : nat :=
  match pattern with
  | EmptyString => i
  | String c rest =>
      if is_byte c backslash then
        (* error check handled in matchChunk: bad pattern. *)
        match rest with
        | String _ rest' => scan_index rest' inrange (S (S i))
        | EmptyString => S i
        end
      else if is_byte c "[" then scan_index rest true (S i)
      else if is_byte c "]" then scan_index rest false (S i)
      else if is_byte c "*" then
        if negb inrange then i else scan_index rest inrange (S i)
      else scan_index rest inrange (S i)
  end.

(** [scanChunk] gets the next segment of pattern: (star, chunk, rest). *)
Definition scanChunk (pattern : string) : bool * string * string :=
  let '(star, pattern) := scan_stars pattern false in
  let i := scan_index pattern false 0 in
  (star, take i pattern, drop i pattern).

(** The outcome of the loop that skips [i+1] bytes after a star. *)
Inductive skip_result : Type :=
  | SkipContinue (t : string)     (* name = t; continue Pattern *)
  | SkipReturn (e : error)        (* return false, err *)
  | SkipExhausted.                (* the loop ran to its end *)

(** [for i := 0; i < len(name) && name[i] != '/'; i++], where [last] is
    [len(pattern) == 0]; the argument is [name[i:]]. *)
Fixpoint skip_after_star (chunk : string) (last : bool) (name : string) : skip_result :=
  match name with
  | EmptyString => SkipExhausted
  | String c rest =>
      if is_byte c slash then SkipExhausted
      else
        let '(t, ok, err) := matchChunk chunk rest in
        if ok then
          (* if we are the last chunk, make sure we exhausted the name *)
          if last && Nat.ltb 0 (len t) then skip_after_star chunk last rest
          else SkipContinue t
        else
          match err with
          | Some e => SkipReturn e
          | None => skip_after_star chunk last rest
          end
  end.

(** Before returning false with no error, check that the remainder of
    the pattern is syntactically valid. *)
Fixpoint check_remainder (fuel : nat) (pattern : string) : option (option error) :=
  match fuel with
  | O => None
  | S fuel' =>
      if is_empty pattern then Some None
      else
        let '(_, chunk, pattern) := scanChunk pattern in
        match matchChunk chunk EmptyString with
        | (_, _, Some e) => Some (Some e)
        | (_, _, None) => check_remainder fuel' pattern
        end
  end.

(** The [Pattern] loop of [Match]. *)
Fixpoint Match_loop (fuel : nat) (pattern name : string) : option (bool * option error) :=
  match fuel with
  | O => None
  | S fuel' =>
      if is_empty pattern then Some (is_empty name, None)
      else
        let '(star, chunk, pattern) := scanChunk pattern in
        if star && is_empty chunk then
          (* Trailing * matches rest of string unless it has a /. *)
          Some (negb (has_byte slash name), None)
        else
          (* Look for match at current position. *)
          let '(t, ok, err) := matchChunk chunk name in
          if ok && (is_empty t || negb (is_empty pattern)) then
            Match_loop fuel' pattern t
          else
            match err with
            | Some e => Some (false, Some e)
            | None =>
                match (if star then skip_after_star chunk (is_empty pattern) name
                       else SkipExhausted) with
                | SkipContinue t => Match_loop fuel' pattern t
                | SkipReturn e => Some (false, Some e)
                | SkipExhausted =>
                    match check_remainder fuel' pattern with
                    | None => None
                    | Some (Some e) => Some (false, Some e)
                    | Some None => Some (false, None)
                    end
                end
            end
  end.

(** [Match] reports whether [name] matches the shell pattern. *)
Definition Match (pattern name : string) : bool * option error :=
  match Match_loop (S (len pattern)) pattern name with
  | Some res => res
  | None => (false, None)
  end.

(** [for len(path) > 0 && path[len(path)-1] == '/'], at most [fuel]
    times; with [fuel = len path] the loop condition is false when the
    fuel is spent. *)
Fixpoint strip_trailing_slashes (fuel : nat) (p : string) : string :=
  match fuel with
  | O => p
  | S fuel' =>
      if Nat.ltb 0 (len p) && N.eqb (byte_at (len p - 1) p) (N_of_ascii slash)
      then strip_trailing_slashes fuel' (take (len p - 1) p)
      else p
  end.

(** [Base] returns the last element of path. *)
Definition Base (p : string) : string :=
  if is_empty p then "."
  else
    (* Strip trailing slashes. *)
    let p := strip_trailing_slashes (len p) p in
    (* Find the last element *)
    let p := match LastIndexByteString p slash with
             | Some i => drop (S i) p
             | None => p
             end in
    (* If empty now, it had only slashes. *)
    if is_empty p then "/" else p.

End path.

(** ** Packages [strings] and [sort] *)
Module gostrings.

(** [strings.Contains(s, substr)] *)
Fixpoint Contains (s substr : string) : bool :=
  String.prefix substr s ||
  match s with
  | EmptyString => false
  | String _ s' => Contains s' substr
  end.

(** [strings.ContainsAny(s, chars)] for ASCII [chars], where the library
    tests each byte of [s] for membership in the ASCII set of [chars]. *)
Fixpoint ContainsAny (s chars : string) : bool :=
  match s with
  | EmptyString => false
  | String c s' => has_byte c chars || ContainsAny s' chars
  end.

(** [strings.Join(elems, sep)] *)
Definition Join (elems : list string) (sep : string) : string :=
  String.concat sep elems.

End gostrings.

Module gosort.

(** Go compares strings byte by byte, as [String.compare] does. *)
Definition string_le (a b : string) : Prop := String.leb a b = true.
Definition string_lt (a b : string) : Prop := String.ltb a b = true.

#[export] Instance string_le_dec a b : Decision (string_le a b).
Proof. unfold string_le. apply _. Defined.

(** [sort.Strings] sorts in increasing order.  The order is total and
    antisymmetric, so the result is determined by the multiset of the
    input, whichever algorithm is run; merge sort stands for it. *)
Definition Strings (x : list string) : list string := merge_sort string_le x.

End gosort.

(** ** The configuration model *)

Definition InputTypeArgs : string := "args".

(** Define a command that will be executed when a relevant file changed. *)
Record TriggerConfig : Type := {
  Name : string;
  Cmd : list string;
  InputType : string;
  Includes : list string;
  Excludes : list string
}.

Record PreflightConfig : Type := {
  Triggers : list TriggerConfig
}.

(** Reading a [map[string]bool]: a missing key reads as [false]. *)
Definition map_get (m : gmap string bool) (k : string) : bool :=
  default false (m !! k).

(** The whitespace set of [validateTrigger]: space, tab, CR, LF. *)
Definition whitespace_chars : string :=
  String " " (String "009" (String "013" (String "010" EmptyString))).

(** The two pattern loops of [validateTrigger]. *)
Fixpoint validate_patterns (wrap : string -> error -> error) (pats : list string)
  : option error :=
  match pats with
  | [] => None
  | pat :: rest =>
      match path.Match pat EmptyString with
      | (_, Some err) => Some (wrap pat err)
      | (_, None) => validate_patterns wrap rest
      end
  end.

Definition validateTrigger (tr : TriggerConfig) : option error :=
  if is_empty (Name tr) then Some ErrEmptyName
  else if gostrings.ContainsAny (Name tr) whitespace_chars then
    Some (ErrWhitespaceName (Name tr))
  else if negb (String.eqb (InputType tr) "args") then
    Some (ErrInputType (InputType tr) (Name tr))
  else
    match validate_patterns (fun pat => ErrIncludePattern pat (Name tr)) (Includes tr) with
    | Some e => Some e
    | None =>
        validate_patterns (fun pat => ErrExcludePattern pat (Name tr)) (Excludes tr)
    end.

(** The loop of [validateConfig], threading [nameMap]. *)
Fixpoint validateConfig_loop (triggers : list TriggerConfig) (nameMap : gmap string bool)
  : option error :=
  match triggers with
  | [] => None
  | t :: rest =>
      if map_get nameMap (Name t) then Some (ErrDuplicateName (Name t))
      else
        let nameMap := <[Name t := true]> nameMap in
        match validateTrigger t with
        | Some err => Some err
        | None => validateConfig_loop rest nameMap
        end
  end.

Definition validateConfig (cfg : PreflightConfig) : option error :=
  validateConfig_loop (Triggers cfg) ∅.

(** ** The pattern matcher *)

(** The name an include pattern is compared with. *)
Definition matchName (pat fname : string) : string :=
  if negb (gostrings.Contains pat "/") then path.Base fname else fname.

(** The inner loop of [match] over [tr.Excludes]; its result is the result
    of [match], including the [return true, nil] that follows the loop. *)
Fixpoint match_excludes (excludes : list string) (matchName : string)
  : bool * option error :=
  match excludes with
  | [] => (true, None)
  | pat :: rest =>
      let '(exclude, err) := path.Match pat matchName in
      match err with
      | Some e => (false, Some e)
      | None => if exclude then (false, None) else match_excludes rest matchName
      end
  end.

(** The outer loop of [match] over [tr.Includes]. *)
Fixpoint match_includes (includes excludes : list string) (fname : string)
  : bool * option error :=
  match includes with
  | [] => (false, None)
  | pat :: rest =>
      let matchName := matchName pat fname in
      let '(include, err) := path.Match pat matchName in
      match err with
      | Some e => (false, Some e)
      | None =>
          if negb include then match_includes rest excludes fname
          else match_excludes excludes matchName
      end
  end.

(** [match] is similar to fnmatch. *)
Definition match_ (tr : TriggerConfig) (fname : string) : bool * option error :=
  match_includes (Includes tr) (Excludes tr) fname.

(** ** The changed-file list ([runPreflight], the block before the triggers) *)

(** [for _, fname := range fnames { changedFileSet[fname] = true }] *)
Definition add_files (set : gmap string bool) (fnames : list string) : gmap string bool :=
  foldl (fun set fname => <[fname := true]> set) set fnames.

(** The set built from [committedFiles], [unstagedFiles], [stagedFiles]. *)
Definition changedFileSet (committedFiles unstagedFiles stagedFiles : list string)
  : gmap string bool :=
  foldl add_files ∅ [committedFiles; unstagedFiles; stagedFiles].

(** [stringSet2Slice]: the keys of the map.  Go leaves the iteration order
    of a map unspecified; [map_to_list] fixes one order here, and the
    theorems about the sorted result quantify over every permutation. *)
Definition stringSet2Slice (ss : gmap string bool) : list string :=
  if Nat.eqb (size ss) 0 then [] else (map_to_list ss).*1.

(** Every order in which [stringSet2Slice] may return the keys. *)
Definition stringSet2Slice_order (ss : gmap string bool) (sl : list string) : Prop :=
  sl ≡ₚ stringSet2Slice ss.

(** [changedFiles] just before [sort.Strings], given what the change
    sources returned: [commitFiles] for [GetGitCommitChanges] (used when
    [commitHash] is not empty), the other three for the merge-base diff,
    the unstaged and the staged changes. *)
Definition unsortedChangedFiles (commitHash : string)
    (commitFiles committedFiles unstagedFiles stagedFiles : list string) : list string :=
  if negb (is_empty commitHash) then commitFiles
  else stringSet2Slice (changedFileSet committedFiles unstagedFiles stagedFiles).

Definition changedFiles (commitHash : string)
    (commitFiles committedFiles unstagedFiles stagedFiles : list string) : list string :=
  gosort.Strings
    (unsortedChangedFiles commitHash commitFiles committedFiles unstagedFiles stagedFiles).

(** ** The trigger loop ([runPreflight], from [cfgTriggerMap] on) *)

(** What the run does to the outside world.  [EvVerbose] is the line
    [run trigger %s: %s] and [EvWouldRun] the line [would run trigger %s: %s]
    on standard error; [EvSpawn] is [cmd.Run()] on [cmdArgs], with
    [failed] telling whether it returned an error. *)
Inductive event : Type :=
  | EvVerbose (name : string) (fnames : string)
  | EvWouldRun (name : string) (cmdline : string)
  | EvSpawn (cmdArgs : list string) (failed : bool).

(** How the process ends: returning from [runPreflight] (exit status 0),
    [os.Exit(1)], or [exitOnError] on a non-nil error. *)
Inductive outcome : Type :=
  | ExitSuccess
  | ExitFailure
  | Fatal (e : error).

(** The loop state: [hasError], and the events so far, each with the
    trigger whose iteration produced it (most recent first). *)
Record run_state : Type := {
  hasError : bool;
  trace : list (TriggerConfig * event)
}.

Definition is_spawn (e : event) : bool :=
  match e with EvSpawn _ _ => true | _ => false end.

(** The number of subprocesses spawned so far. *)
Definition spawn_count (tr : list (TriggerConfig * event)) : nat :=
  length (List.filter (fun te => is_spawn (snd te)) tr).

Section Orchestrator.

(** [gitapi.BashQuote], whose source is not part of the embedding. *)
Variable BashQuote : list string -> list string.

(** The subprocess outcomes: [cmdRun k cmdArgs] tells whether the
    subprocess spawned as number [k] of the run, with arguments
    [cmdArgs], fails ([cmd.Run()] returns an error). *)
Variable cmdRun : nat -> list string -> bool.

Variable changed : list string.
Variable dryRun verbose : bool.

(** The loop over [changedFiles] that collects [fnames]; [inl] is
    [exitOnError(err)]. *)
Fixpoint collect_fnames (tr : TriggerConfig) (files fnames : list string)
  : error + list string :=
  match files with
  | [] => inr fnames
  | fname :: rest =>
      let '(matched, err) := match_ tr fname in
      match err with
      | Some e => inl e
      | None =>
          collect_fnames tr rest (if matched then fnames ++ [fname] else fnames)
      end
  end.

(** The loop [for _, tr := range cfg.Triggers]. *)
Fixpoint run_triggers (triggers : list TriggerConfig)
         (enabledTriggers : gmap string bool) (st : run_state)
  : run_state * option error :=
  match triggers with
  | [] => (st, None)
  | tr :: rest =>
      if negb (map_get enabledTriggers (Name tr)) then
        run_triggers rest enabledTriggers st
      else
        match collect_fnames tr changed [] with
        | inl e => (st, Some e)
        | inr fnames =>
            if Nat.eqb (length fnames) 0 then run_triggers rest enabledTriggers st
            else
              let st :=
                if verbose
                then {| hasError := hasError st;
                        trace := (tr, EvVerbose (Name tr) (gostrings.Join fnames ", "))
                                 :: trace st |}
                else st in
              if String.eqb (InputType tr) "args" then
                let cmdArgs := Cmd tr ++ fnames in
                if dryRun then
                  run_triggers rest enabledTriggers
                    {| hasError := hasError st;
                       trace := (tr, EvWouldRun (Name tr)
                                       (gostrings.Join (BashQuote cmdArgs) " "))
                                :: trace st |}
                else
                  let failed := cmdRun (spawn_count (trace st)) cmdArgs in
                  run_triggers rest enabledTriggers
                    {| hasError := if failed then true else hasError st;
                       trace := (tr, EvSpawn cmdArgs failed) :: trace st |}
              else (st, Some (ErrRunInputType (InputType tr) (Name tr)))
        end
  end.

(** [cfgTriggerMap]; only the presence of a key is ever read. *)
Definition cfgTriggerMap (cfg : PreflightConfig) : gmap string TriggerConfig :=
  foldl (fun m tr => <[Name tr := tr]> m) ∅ (Triggers cfg).

Definition allTriggerNames (cfg : PreflightConfig) : list string :=
  foldl (fun names tr => names ++ [Name tr]) [] (Triggers cfg).

(** The loop that fills [enabledTriggers]; [inl] is [exitOnError]. *)
Fixpoint enable_triggers (m : gmap string TriggerConfig) (triggerNames : list string)
         (enabledTriggers : gmap string bool) : error + gmap string bool :=
  match triggerNames with
  | [] => inr enabledTriggers
  | name :: rest =>
      match m !! name with
      | None => inl (ErrNoSuchTrigger name)
      | Some _ => enable_triggers m rest (<[name := true]> enabledTriggers)
      end
  end.

(** The selection of [runPreflight]: the enabled set, or the fatal error. *)
Definition selectTriggers (cfg : PreflightConfig) (triggerNames : list string)
  : error + gmap string bool :=
  let triggerNames :=
    (* If there are no explicit triggers, run them all. *)
    if Nat.eqb (length triggerNames) 0 then allTriggerNames cfg else triggerNames in
  enable_triggers (cfgTriggerMap cfg) triggerNames ∅.

(** [runPreflight] from the selection on: the events in the order they
    happened, and how the process ends. *)
Definition runPreflight (cfg : PreflightConfig) (triggerNames : list string)
  : list (TriggerConfig * event) * outcome :=
  match selectTriggers cfg triggerNames with
  | inl e => ([], Fatal e)
  | inr enabledTriggers =>
      let '(st, err) :=
        run_triggers (Triggers cfg) enabledTriggers {| hasError := false; trace := [] |} in
      match err with
      | Some e => (rev (trace st), Fatal e)
      | None => (rev (trace st), if hasError st then ExitFailure else ExitSuccess)
      end
  end.

End Orchestrator.

(** * Vocabulary of the specification and of the proofs *)

(** ** Reading the results of the [path] loops *)
Module path_spec.
Import path.

(** Two runs of the range loop on the same chunk end alike. *)
Definition ranges_agree (a b : option (error + string * bool)) : Prop :=
  match a, b with
  | None, None => True
  | Some (inl e), Some (inl e') => e = e'
  | Some (inr (c, _)), Some (inr (c', _)) => c = c'
  | _, _ => False
  end.

Definition err_of (o : option (string * bool * option error)) : option (option error) :=
  match o with Some (_, _, err) => Some err | None => None end.

(** No chunk of the pattern has a syntax error (within the fuel). *)
Definition remainder_ok (fuel : nat) (pattern : string) : Prop :=
  forall e, check_remainder fuel pattern <> Some (Some e).

Definition loop_ok (o : option (bool * option error)) : Prop :=
  forall b e, o <> Some (b, Some e).

End path_spec.

(** The outcome of one glob comparison: a match, a clean non-match, or
    neither when the pattern is malformed ([path.Match] returns an error). *)
Definition glob_matches (pat name : string) : Prop := path.Match pat name = (true, None).
Definition glob_rejects (pat name : string) : Prop := path.Match pat name = (false, None).

(** The matcher as the specification words it: the first include pattern
    that matches decides, and the file is matched when no exclude pattern
    matches the candidate name of that include. *)
Definition spec_matched (tr : TriggerConfig) (fname : string) : bool :=
  match List.find (fun pat => fst (path.Match pat (matchName pat fname))) (Includes tr) with
  | None => false
  | Some pat =>
      negb (existsb (fun e => fst (path.Match e (matchName pat fname))) (Excludes tr))
  end.

(** No pattern of the trigger is malformed: no comparison fails. *)
Definition no_glob_error (tr : TriggerConfig) : Prop :=
  forall pat name, pat ∈ Includes tr ++ Excludes tr -> snd (path.Match pat name) = None.

Definition with_excludes (tr : TriggerConfig) (excludes : list string) : TriggerConfig :=
  {| Name := Name tr; Cmd := Cmd tr; InputType := InputType tr;
     Includes := Includes tr; Excludes := excludes |}.

Definition trigger_of (includes excludes : list string) : TriggerConfig :=
  {| Name := "t"; Cmd := ["true"]; InputType := InputTypeArgs;
     Includes := includes; Excludes := excludes |}.

Definition pattern_ok (pat : string) : Prop := snd (path.Match pat EmptyString) = None.

Definition lint_trigger : TriggerConfig :=
  {| Name := "lint"; Cmd := ["golint"]; InputType := "args";
     Includes := ["*.go"; "cmd/[a-z]*/main.go"]; Excludes := ["*_test.go"] |}.
Definition docs_trigger : TriggerConfig :=
  {| Name := "docs"; Cmd := ["mdfmt"; "-w"]; InputType := "args";
     Includes := ["README.md"; "docs/*.md"]; Excludes := [] |}.
Definition sample_config : PreflightConfig :=
  {| Triggers := [lint_trigger; docs_trigger] |}.

(** The checks of post-decode validation as the specification lists
    them, in order; each is [None] when it passes. *)
Definition syntax_check (wrap : string -> error -> error) (pat : string) : option error :=
  match snd (path.Match pat EmptyString) with
  | Some err => Some (wrap pat err)
  | None => None
  end.

Definition trigger_checks (earlier : list string) (t : TriggerConfig) : list (option error) :=
  [ (* duplicate name *)
    if bool_decide (Name t ∈ earlier) then Some (ErrDuplicateName (Name t)) else None;
    (* empty or whitespace-containing name *)
    if is_empty (Name t) then Some ErrEmptyName
    else if gostrings.ContainsAny (Name t) whitespace_chars
         then Some (ErrWhitespaceName (Name t)) else None;
    (* unrecognized input_mode *)
    if String.eqb (InputType t) InputTypeArgs then None
    else Some (ErrInputType (InputType t) (Name t)) ]
  (* each include pattern, then each exclude pattern *)
  ++ map (syntax_check (fun pat => ErrIncludePattern pat (Name t))) (Includes t)
  ++ map (syntax_check (fun pat => ErrExcludePattern pat (Name t))) (Excludes t).

(** All checks of a configuration, trigger by trigger; [earlier] holds the
    names of the triggers already checked. *)
Fixpoint config_checks (earlier : list string) (triggers : list TriggerConfig)
  : list (option error) :=
  match triggers with
  | [] => []
  | t :: rest => trigger_checks earlier t ++ config_checks (earlier ++ [Name t]) rest
  end.

(** The first violation in a list of checks. *)
Fixpoint first_violation (checks : list (option error)) : option error :=
  match checks with
  | [] => None
  | Some e :: _ => Some e
  | None :: rest => first_violation rest
  end.

Definition config_names (cfg : PreflightConfig) : list string := Name <$> Triggers cfg.

(** A trigger is requested when no name was given, or its name was. *)
Definition is_requested (triggerNames : list string) (tr : TriggerConfig) : bool :=
  match triggerNames with
  | [] => true
  | _ => bool_decide (Name tr ∈ triggerNames)
  end.

(** The changed files that a trigger matches. *)
Definition matched_files (tr : TriggerConfig) (changed : list string) : list string :=
  List.filter (fun fname => fst (match_ tr fname)) changed.

(** A trigger runs when it is eligible and matches some changed file. *)
Definition runs (enabled : gmap string bool) (changed : list string) (tr : TriggerConfig) : bool :=
  map_get enabled (Name tr) && negb (Nat.eqb (length (matched_files tr changed)) 0).

Definition is_would_run (e : event) : bool :=
  match e with EvWouldRun _ _ => true | _ => false end.

(** The events that start or announce a command. *)
Definition is_action (e : event) : bool := is_spawn e || is_would_run e.

Section RunVocabulary.

Variable BashQuote : list string -> list string.
Variable cmdRun : nat -> list string -> bool.
Variable changed : list string.
Variable dryRun verbose : bool.

(** [cmdArgs]: the fixed command tokens, then the matched file names. *)
Definition cmdArgs_of (tr : TriggerConfig) : list string :=
  Cmd tr ++ matched_files tr changed.

Definition verbose_events (tr : TriggerConfig) : list (TriggerConfig * event) :=
  if verbose
  then [(tr, EvVerbose (Name tr) (gostrings.Join (matched_files tr changed) ", "))]
  else [].

(** The events of a run over the triggers [trs] that run, the first
    subprocess being subprocess number [k]. *)
Fixpoint expected_trace (k : nat) (trs : list TriggerConfig) : list (TriggerConfig * event) :=
  match trs with
  | [] => []
  | tr :: rest =>
      verbose_events tr ++
      (if dryRun
       then (tr, EvWouldRun (Name tr) (gostrings.Join (BashQuote (cmdArgs_of tr)) " "))
            :: expected_trace k rest
       else (tr, EvSpawn (cmdArgs_of tr) (cmdRun k (cmdArgs_of tr)))
            :: expected_trace (S k) rest)
  end.

Definition is_failed_spawn (e : event) : bool :=
  match e with EvSpawn _ true => true | _ => false end.

Definition any_failed (evs : list (TriggerConfig * event)) : bool :=
  existsb (fun te => is_failed_spawn (snd te)) evs.

(** What every event of a run satisfies, whatever the configuration. *)
Definition event_ok (enabled : gmap string bool) (te : TriggerConfig * event) : Prop :=
  map_get enabled (Name (fst te)) = true /\
  matched_files (fst te) changed <> [] /\
  match snd te with
  | EvSpawn cmdArgs _ => dryRun = false /\ cmdArgs = cmdArgs_of (fst te)
  | EvWouldRun name cmdline =>
      dryRun = true /\ name = Name (fst te) /\
      cmdline = gostrings.Join (BashQuote (cmdArgs_of (fst te))) " "
  | EvVerbose _ _ => verbose = true
  end.

Definition actions (evs : list (TriggerConfig * event)) : list (TriggerConfig * event) :=
  List.filter (fun te => is_action (snd te)) evs.

End RunVocabulary.

(** The triggers that a run executes: requested, with a matched file. *)
Definition to_run (cfg : PreflightConfig) (triggerNames changed : list string)
  : list TriggerConfig :=
  List.filter (fun tr => is_requested triggerNames tr &&
                         negb (Nat.eqb (length (matched_files tr changed)) 0))
              (Triggers cfg).

(** The subprocesses of a live run over [trs], numbered from [k]. *)
Fixpoint expected_spawns (cmdRun : nat -> list string -> bool) (changed : list string)
         (k : nat) (trs : list TriggerConfig) : list (TriggerConfig * event) :=
  match trs with
  | [] => []
  | tr :: rest =>
      (tr, EvSpawn (cmdArgs_of changed tr) (cmdRun k (cmdArgs_of changed tr)))
      :: expected_spawns cmdRun changed (S k) rest
  end.

(** The lines of a dry run over [trs]. *)
Definition expected_would_run (BashQuote : list string -> list string)
           (changed : list string) (trs : list TriggerConfig) : list (TriggerConfig * event) :=
  map (fun tr => (tr, EvWouldRun (Name tr)
                        (gostrings.Join (BashQuote (cmdArgs_of changed tr)) " "))) trs.

Definition spawns (evs : list (TriggerConfig * event)) : list (TriggerConfig * event) :=
  List.filter (fun te => is_spawn (snd te)) evs.

Definition would_runs (evs : list (TriggerConfig * event)) : list (TriggerConfig * event) :=
  List.filter (fun te => is_would_run (snd te)) evs.

(** A sample quoting function and sample subprocess outcomes. *)
Definition sample_quote (args : list string) : list string :=
  map (fun a => String.append "'" (String.append a "'")) args.

Definition first_fails (k : nat) (cmdArgs : list string) : bool := Nat.eqb k 0.

Definition sample_changed : list string := ["README.md"; "main.go"; "main_test.go"].

(** * The rest of the program: definitions *)

(** ** More of package [path]: [Clean], [Split] and [Dir]

    Transcribed from [path/path.go].  The [lazybuf] of [Clean] is
    modelled by the bytes written so far, last byte first, so that
    [out.w] is the length of the list; the loop takes fuel, which
    [Clean_loop_total] shows to suffice. *)
Module path_dir.

(** [out.w--], then [for out.w > dotdot && out.index(out.w) != '/'
    { out.w-- }]: [removed] is the byte at index [out.w]. *)
Fixpoint backtrack_loop (out : list ascii) (dotdot : nat) (removed : ascii) : list ascii :=
  match out with
  | [] => out
  | c :: rest =>
      if Nat.ltb dotdot (length out) && negb (is_byte removed slash)
      then backtrack_loop rest dotdot c
      else out
  end.

Definition backtrack (out : list ascii) (dotdot : nat) : list ascii :=
  match out with
  | [] => out
  | c :: rest => backtrack_loop rest dotdot c
  end.

(** [for ; r < n && path[r] != '/'; r++ { out.append(path[r]) }]:
    the buffer and the rest of the path after the element. *)
Fixpoint copy_element (path : string) (out : list ascii) : list ascii * string :=
  match path with
  | EmptyString => (out, path)
  | String c rest =>
      if is_byte c slash then (out, path) else copy_element rest (c :: out)
  end.

(** The loop [for r < n] of [Clean]; [path] is [path[r:]]. *)
Fixpoint Clean_loop (fuel : nat) (rooted : bool) (path : string)
         (out : list ascii) (dotdot : nat) : option (list ascii) :=
  match fuel with
  | O => None
  | S fuel' =>
      match path with
      | EmptyString => Some out
      | String c rest =>
          if is_byte c slash then
            (* empty path element *)
            Clean_loop fuel' rooted rest out dotdot
          else if is_byte c "." && (is_empty rest || head_is slash rest) then
            (* . element *)
            Clean_loop fuel' rooted rest out dotdot
          else if is_byte c "." && head_is "." rest &&
                  (is_empty (drop 1 rest) || head_is slash (drop 1 rest)) then
            (* .. element: remove to last / *)
            if Nat.ltb dotdot (length out) then
              (* can backtrack *)
              Clean_loop fuel' rooted (drop 1 rest) (backtrack out dotdot) dotdot
            else if negb rooted then
              (* cannot backtrack, but not rooted, so append .. element. *)
              let out := if Nat.ltb 0 (length out) then slash :: out else out in
              let out := "."%char :: "."%char :: out in
              Clean_loop fuel' rooted (drop 1 rest) out (length out)
            else Clean_loop fuel' rooted (drop 1 rest) out dotdot
          else
            (* real path element. add slash if needed *)
            let out :=
              if (rooted && negb (Nat.eqb (length out) 1)) ||
                 (negb rooted && negb (Nat.eqb (length out) 0))
              then slash :: out else out in
            (* copy element *)
            let '(out, path) := copy_element path out in
            Clean_loop fuel' rooted path out dotdot
      end
  end.

(** [Clean] returns the shortest path name equivalent to [path]. *)
Definition Clean (path : string) : string :=
  if is_empty path then "."
  else
    let rooted := head_is slash path in
    let out :=
      if rooted
      then Clean_loop (S (len path)) rooted (drop 1 path) [slash] 1
      else Clean_loop (S (len path)) rooted path [] 0 in
    match out with
    | Some out =>
        (* Turn empty string into "." *)
        if Nat.eqb (length out) 0 then "." else string_of_list_ascii (rev out)
    | None => "."
    end.

(** [Split] splits path immediately following the final slash. *)
Definition Split (path : string) : string * string :=
  match LastIndexByteString path slash with
  | Some i => (take (S i) path, drop (S i) path)
  | None => (EmptyString, path)
  end.

(** [Dir] returns all but the last element of path. *)
Definition Dir (path : string) : string := Clean (fst (Split path)).

End path_dir.


(** ** [readConfig], [runValidate] and [Predict] *)

(** The errors of [readConfig]: from [os.Open], from the decoder, or from
    [validateConfig]; [E] is the type of the errors of the operating
    system, of the decoder and of git. *)
Inductive config_error (E : Type) : Type :=
  | OpenError (e : E)
  | DecodeError (e : E)
  | ValidateError (e : error).
Arguments OpenError {E} e.
Arguments DecodeError {E} e.
Arguments ValidateError {E} e.

(** What [runValidate] prints: [println(fname)] and [println(err)]. *)
Inductive validate_event (E : Type) : Type :=
  | PrintName (fname : string)
  | PrintErr (err : option (config_error E)).
Arguments PrintName {E} fname.
Arguments PrintErr {E} err.

(** The change sources of package [gitapi], for the working directory of
    the run; each returns its value or an error. *)
Record git_sources (E : Type) : Type := {
  GetGitCommitChanges : string -> E + list string;
  GetMergeBaseCommitHash : E + string;
  GetGitDiffChanges : string -> E + list string;
  GetGitUnstagedChanges : E + list string;
  GetGitStagedChanges : E + list string
}.
Arguments GetGitCommitChanges {E} g _.
Arguments GetMergeBaseCommitHash {E} g.
Arguments GetGitDiffChanges {E} g _.
Arguments GetGitUnstagedChanges {E} g.
Arguments GetGitStagedChanges {E} g.

(** How the whole of [runPreflight] ends: [exitOnError] on the error of
    [readConfig] or of a change source, or the trigger loop with its
    events and its outcome. *)
Inductive run_result (E : Type) : Type :=
  | ConfigFatal (e : config_error E)
  | GitFatal (e : E)
  | Ran (events : list (TriggerConfig * event)) (out : outcome).
Arguments ConfigFatal {E} e.
Arguments GitFatal {E} e.
Arguments Ran {E} events out.

Section Program.

Variable E : Type.
Variable File : Type.

(** [os.Open], and the JSON-with-comments decoder with
    [DisallowUnknownFields]. *)
Variable os_Open : string -> E + File.
Variable Decode : File -> E + PreflightConfig.

(** [isDir]: [os.Stat] succeeds and reports a directory. *)
Variable os_isDir : string -> bool.

Variable git : git_sources E.
Variable BashQuote : list string -> list string.
Variable cmdRun : nat -> list string -> bool.

Definition readConfig (fname : string) : config_error E + PreflightConfig :=
  match os_Open fname with
  | inl err => inl (OpenError err)
  | inr f =>
      match Decode f with
      | inl err => inl (DecodeError err)
      | inr cfg =>
          match validateConfig cfg with
          | Some err => inl (ValidateError err)
          | None => inr cfg
          end
      end
  end.

(** [runValidate]: the lines printed, and the error of [log.Fatalf] if
    the run ends there. *)
Fixpoint runValidate (args : list string)
  : list (validate_event E) * option (config_error E) :=
  match args with
  | [] => ([], None)
  | fname :: rest =>
      match readConfig fname with
      | inl err => ([PrintName fname; PrintErr (Some err)], Some err)
      | inr _ =>
          let '(evs, res) := runValidate rest in
          (PrintName fname :: PrintErr None :: evs, res)
      end
  end.

(** A file that [readConfig] reads and validates. *)
Definition config_ok (fname : string) : Prop :=
  exists cfg, readConfig fname = inr cfg.

(** The lines that [runValidate] prints for valid files. *)
Definition ok_lines (fnames : list string) : list (validate_event E) :=
  flat_map (fun f => [PrintName f; PrintErr None]) fnames.

(** The loop of [Predict] that collects the names. *)
Fixpoint predict_names (triggers : list TriggerConfig) (lastCompleted : string)
         (names : list string) : list string :=
  match triggers with
  | [] => names
  | t :: rest =>
      predict_names rest lastCompleted
        (if negb (String.eqb lastCompleted (Name t)) then names ++ [Name t] else names)
  end.

(** The method [Predict] of [predictTrigger]; [configPath] is the path of the file
    .git-preflight in the working directory. *)
Definition Predict (configPath lastCompleted : string) : list string :=
  match readConfig configPath with
  | inl _ => []
  | inr cfg => gosort.Strings (predict_names (Triggers cfg) lastCompleted [])
  end.

(** [for _, f := range changedFiles]: the set of the parent directories
    that exist. *)
Definition changedDirSet (changedFiles : list string) : gmap string bool :=
  foldl (fun set f =>
           let dirName := path_dir.Dir f in
           if os_isDir dirName then <[dirName := true]> set else set)
        ∅ changedFiles.

Definition changedDirs (changedFiles : list string) : list string :=
  gosort.Strings (stringSet2Slice (changedDirSet changedFiles)).

(** The queries of the change sources, in the order of [runPreflight],
    each followed by [exitOnError]: the unsorted [changedFiles]. *)
Definition queryChangedFiles (commitHash : string) : E + list string :=
  if negb (is_empty commitHash) then GetGitCommitChanges git commitHash
  else
    match GetMergeBaseCommitHash git with
    | inl err => inl err
    | inr mergeBaseHash =>
        match GetGitDiffChanges git mergeBaseHash with
        | inl err => inl err
        | inr committedFiles =>
            match GetGitUnstagedChanges git with
            | inl err => inl err
            | inr unstagedFiles =>
                match GetGitStagedChanges git with
                | inl err => inl err
                | inr stagedFiles =>
                    inr (stringSet2Slice
                           (changedFileSet committedFiles unstagedFiles stagedFiles))
                end
            end
        end
    end.

(** The whole of [runPreflight]: the configuration is read, then the
    changed files are queried and sorted, then the triggers run.  The
    logging of [changedFiles] and [changedDirs] leaves no trace here. *)
Definition runPreflightCommand (configPath commitHash : string) (dryRun verbose : bool)
           (triggerNames : list string) : run_result E :=
  match readConfig configPath with
  | inl err => ConfigFatal err
  | inr cfg =>
      match queryChangedFiles commitHash with
      | inl err => GitFatal err
      | inr files =>
          let changedFiles := gosort.Strings files in
          let '(events, out) :=
            runPreflight BashQuote cmdRun changedFiles dryRun verbose cfg triggerNames in
          Ran events out
      end
  end.

End Program.

(** A trigger whose include patterns have no path separator, with an
    exclude pattern that has one. *)
Definition lint_trigger_flat : TriggerConfig :=
  {| Name := "lint"; Cmd := ["golint"]; InputType := "args";
     Includes := ["*.go"]; Excludes := ["vendor/*"] |}.


(** A sample environment: every file opens and decodes to
    [sample_config]; three change sources that overlap. *)
Definition sample_open (fname : string) : unit + string := inr fname.
Definition sample_decode (f : string) : unit + PreflightConfig := inr sample_config.
Definition sample_git : git_sources unit :=
  {| GetGitCommitChanges := fun _ => inr ["main.go"];
     GetMergeBaseCommitHash := inr "c0ffee";
     GetGitDiffChanges := fun _ => inr ["main.go"; "README.md"];
     GetGitUnstagedChanges := inr ["main.go"; "main_test.go"];
     GetGitStagedChanges := inr [] |}.

(** * Facts about the library model

    ** Byte strings *)

Lemma drop_length n s : len (drop n s) = len s - n.
Proof. revert s; induction n as [|n IH]; intros [|c s]; simpl; auto. Qed.

Arguments drop : simpl never.

Lemma is_empty_true s : is_empty s = true <-> s = EmptyString.
Proof. destruct s; simpl; split; congruence. Qed.

Lemma is_empty_false_len s : is_empty s = false <-> 0 < len s.
Proof. destruct s; simpl; split; intros; try congruence; lia. Qed.

Lemma head_is_nonempty c s : head_is c s = true -> 0 < len s.
Proof. destruct s; simpl; [congruence | lia]. Qed.

Lemma DecodeRuneInString_size s r n :
  utf8.DecodeRuneInString s = (r, n) -> 0 < len s -> 1 <= n.
Proof.
  unfold utf8.DecodeRuneInString. intros H Hs.
  destruct (Nat.ltb_spec (len s) 1) as [Hlt|_]; [lia|].
  repeat match type of H with
         | (if ?b then _ else _) = _ => destruct b
         | (let _ := _ in _) = _ => cbv zeta in H
         end;
  inversion H; lia.
Qed.

Module path_facts.
Import utf8 path path_spec.

Lemma getEsc_shorter chunk r nchunk :
  getEsc chunk = (r, nchunk, None) -> len nchunk < len chunk.
Proof.
  unfold getEsc. destruct chunk as [|c rest]; [congruence|].
  destruct (is_byte c "-" || is_byte c "]"); [congruence|].
  destruct (is_byte c backslash && is_empty (if is_byte c backslash then rest else String c rest));
    [congruence|].
  destruct (DecodeRuneInString _) as [r' n] eqn:Hd.
  destruct (is_empty (drop n _)) eqn:He; [congruence|].
  intros H; inversion H; subst; clear H.
  apply is_empty_false_len in He.
  rewrite drop_length in *.
  assert (1 <= n).
  { eapply DecodeRuneInString_size; [exact Hd|]. lia. }
  destruct (is_byte c backslash); simpl in *; lia.
Qed.

(** The range loop ends within its fuel, and leaves a shorter chunk. *)
Lemma parse_ranges_total fuel : forall chunk r m nr,
  len chunk < fuel ->
  exists res, parse_ranges fuel chunk r m nr = Some res /\
    forall c' m', res = inr (c', m') -> len c' < len chunk.
Proof.
  induction fuel as [|fuel IH]; intros chunk r m nr Hlen; [lia|].
  cbn [parse_ranges].
  destruct (head_is "]" chunk && Nat.ltb 0 nr) eqn:Hbr.
  { eexists; split; [reflexivity|]. intros c' m' [= <- _].
    apply andb_true_iff in Hbr as [Hh _]. apply head_is_nonempty in Hh.
    rewrite drop_length. lia. }
  destruct (getEsc chunk) as [[lo c1] [e|]] eqn:H1.
  { eexists; split; [reflexivity|]. congruence. }
  apply getEsc_shorter in H1.
  destruct (head_is "-" c1) eqn:Hd.
  - destruct (getEsc (drop 1 c1)) as [[hi c2] [e|]] eqn:H2.
    { eexists; split; [reflexivity|]. congruence. }
    apply getEsc_shorter in H2. rewrite drop_length in H2.
    destruct (IH c2 r (if (lo <=? r)%N && (r <=? hi)%N then true else m) (S nr))
      as (res & -> & Hres); [lia|].
    eexists; split; [reflexivity|]. intros c' m' ->.
    specialize (Hres _ _ eq_refl). lia.
  - destruct (IH c1 r (if (lo <=? r)%N && (r <=? lo)%N then true else m) (S nr))
      as (res & -> & Hres); [lia|].
    eexists; split; [reflexivity|]. intros c' m' ->.
    specialize (Hres _ _ eq_refl). lia.
Qed.

Lemma class_negated_length chunk b c' :
  class_negated chunk = (b, c') -> len c' <= len chunk.
Proof.
  unfold class_negated. destruct (head_is "^" chunk); intros [= <- <-];
    rewrite ?drop_length; lia.
Qed.

Lemma matchChunk_loop_total fuel : forall chunk s failed,
  len chunk < fuel -> is_Some (matchChunk_loop fuel chunk s failed).
Proof.
  induction fuel as [|fuel IH]; intros chunk s failed Hlen; [lia|].
  cbn [matchChunk_loop]. destruct chunk as [|c rest].
  { destruct failed; eauto. }
  simpl in Hlen.
  set (failed' := if negb failed && is_empty s then true else failed).
  destruct (is_byte c "[").
  { destruct (class_rune failed' s) as [r s'].
    destruct (class_negated rest) as [negated chunk] eqn:Hn.
    apply class_negated_length in Hn.
    destruct (parse_ranges_total fuel chunk r false 0) as (res & -> & Hres); [lia|].
    destruct res as [e|[c' m']]; [eauto|].
    specialize (Hres _ _ eq_refl). apply IH. lia. }
  destruct (is_byte c "?").
  { destruct (any_step failed' s) as [s' f']. apply IH. lia. }
  destruct (is_byte c backslash && is_empty _); [eauto|].
  destruct (literal_step _ failed' s) as [s' f'].
  apply IH. rewrite drop_length. destruct (is_byte c backslash); simpl; lia.
Qed.

Theorem matchChunk_total chunk s :
  matchChunk_loop (S (len chunk)) chunk s false = Some (matchChunk chunk s).
Proof.
  unfold matchChunk.
  destruct (matchChunk_loop_total (S (len chunk)) chunk s false) as [res ->]; [lia|].
  reflexivity.
Qed.

(** ** [scanChunk] *)

Lemma scan_stars_spec pattern b star p' :
  scan_stars pattern b = (star, p') ->
  head_is "*" p' = false /\
  ((star = b /\ p' = pattern) \/ (star = true /\ len p' < len pattern)).
Proof.
  revert b. induction pattern as [|c rest IH]; intros b; simpl.
  { intros [= <- <-]. auto. }
  destruct (is_byte c "*") eqn:Hc.
  - intros H. apply IH in H as [Hh [[-> ->]|[-> Hl]]]; split; auto; right; split; auto; lia.
  - intros [= <- <-]. simpl. rewrite Hc. auto.
Qed.

Lemma scan_index_ge pattern : forall inrange i, i <= scan_index pattern inrange i.
Proof.
  induction pattern as [pattern IH] using (induction_ltof1 _ len).
  unfold ltof in IH. intros inrange i.
  destruct pattern as [|c rest]; simpl; [lia|].
  destruct (is_byte c backslash).
  { destruct rest as [|c' rest']; [lia|].
    specialize (IH rest' ltac:(simpl; lia) inrange (S (S i))). lia. }
  assert (forall b, S i <= scan_index rest b (S i)) as Hr.
  { intros b. apply IH. simpl. lia. }
  destruct (is_byte c "["); [specialize (Hr true); lia|].
  destruct (is_byte c "]"); [specialize (Hr false); lia|].
  destruct (is_byte c "*"); [destruct (negb inrange); [lia|]|];
    specialize (Hr inrange); lia.
Qed.

Lemma scan_index_pos c rest :
  is_byte c "*" = false -> 1 <= scan_index (String c rest) false 0.
Proof.
  intros Hc. simpl. rewrite Hc.
  destruct (is_byte c backslash).
  { destruct rest; [lia|]. pose proof (scan_index_ge rest false 2). lia. }
  destruct (is_byte c "["); [pose proof (scan_index_ge rest true 1); lia|].
  destruct (is_byte c "]"); pose proof (scan_index_ge rest false 1); lia.
Qed.

Lemma take_pos_nonempty i c rest : 1 <= i -> is_empty (take i (String c rest)) = false.
Proof. destruct i; [lia|]. reflexivity. Qed.

(** A non-empty pattern loses at least one byte to [scanChunk]. *)
Lemma scanChunk_shorter pattern star chunk rest :
  scanChunk pattern = (star, chunk, rest) ->
  is_empty pattern = false -> len rest < len pattern.
Proof.
  unfold scanChunk. destruct (scan_stars pattern false) as [st p'] eqn:Hs.
  intros [= <- <- <-] Hne. apply is_empty_false_len in Hne.
  rewrite drop_length.
  apply scan_stars_spec in Hs as [Hh [[-> ->]|[-> Hl]]]; [|lia].
  destruct pattern as [|c r]; [simpl in Hne; lia|].
  pose proof (scan_index_pos c r Hh). simpl in *. lia.
Qed.

(** An empty chunk is the end of the pattern. *)
Lemma scanChunk_empty_chunk pattern star chunk rest :
  scanChunk pattern = (star, chunk, rest) ->
  is_empty chunk = true -> rest = EmptyString.
Proof.
  unfold scanChunk. destruct (scan_stars pattern false) as [st p'] eqn:Hs.
  intros [= <- <- <-] He.
  apply scan_stars_spec in Hs as [Hh _].
  destruct p' as [|c r]; [reflexivity|].
  rewrite take_pos_nonempty in He; [congruence|].
  apply scan_index_pos. exact Hh.
Qed.

(** Without a star, the chunk of a non-empty pattern is not empty. *)
Lemma scanChunk_nonempty_chunk pattern chunk rest :
  scanChunk pattern = (false, chunk, rest) ->
  is_empty pattern = false -> is_empty chunk = false.
Proof.
  unfold scanChunk. destruct (scan_stars pattern false) as [st p'] eqn:Hs.
  intros [= -> <- <-] Hne.
  apply scan_stars_spec in Hs as [Hh [[_ ->]|[? _]]]; [|congruence].
  destruct pattern as [|c r]; [simpl in Hne; congruence|].
  apply take_pos_nonempty, scan_index_pos, Hh.
Qed.

(** ** Totality of [Match] *)

Lemma check_remainder_total fuel : forall pattern,
  len pattern < fuel -> is_Some (check_remainder fuel pattern).
Proof.
  induction fuel as [|fuel IH]; intros pattern Hlen; [lia|].
  cbn [check_remainder]. destruct (is_empty pattern) eqn:He; [eauto|].
  destruct (scanChunk pattern) as [[star chunk] rest] eqn:Hs.
  apply scanChunk_shorter in Hs; [|exact He].
  destruct (matchChunk chunk EmptyString) as [[t ok] [e|]]; [eauto|].
  apply IH. lia.
Qed.

Lemma Match_loop_total fuel : forall pattern name,
  len pattern < fuel -> is_Some (Match_loop fuel pattern name).
Proof.
  induction fuel as [|fuel IH]; intros pattern name Hlen; [lia|].
  cbn [Match_loop]. destruct (is_empty pattern) eqn:He; [eauto|].
  destruct (scanChunk pattern) as [[star chunk] rest] eqn:Hs.
  apply scanChunk_shorter in Hs; [|exact He].
  destruct (star && is_empty chunk); [eauto|].
  destruct (matchChunk chunk name) as [[t ok] err].
  destruct (ok && _); [apply IH; lia|].
  destruct err as [e|]; [eauto|].
  destruct (if star then _ else _); [apply IH; lia|eauto|].
  destruct (check_remainder_total fuel rest) as [[e|] ->]; [lia|eauto..].
Qed.

(** [Match] never runs out of fuel: its result is the result of the loop. *)
Theorem Match_total pattern name :
  Match_loop (S (len pattern)) pattern name = Some (Match pattern name).
Proof.
  unfold Match.
  destruct (Match_loop_total (S (len pattern)) pattern name) as [res ->]; [lia|].
  reflexivity.
Qed.

(** ** Syntax errors do not depend on the name

    [matchChunk] goes on reading the chunk after the match has failed, so
    the error it returns is a function of the chunk alone. *)

Lemma parse_ranges_agree fuel : forall chunk r m r' m' nr,
  ranges_agree (parse_ranges fuel chunk r m nr) (parse_ranges fuel chunk r' m' nr).
Proof.
  induction fuel as [|fuel IH]; intros; cbn [parse_ranges]; [exact I|].
  destruct (head_is "]" chunk && Nat.ltb 0 nr); [reflexivity|].
  destruct (getEsc chunk) as [[lo c1] [e|]]; [reflexivity|].
  destruct (if head_is "-" c1 then getEsc (drop 1 c1) else (lo, c1, None))
    as [[hi c2] [e|]]; [reflexivity|].
  apply IH.
Qed.

Lemma matchChunk_loop_err fuel : forall chunk s failed s' failed',
  err_of (matchChunk_loop fuel chunk s failed) =
  err_of (matchChunk_loop fuel chunk s' failed').
Proof.
  induction fuel as [|fuel IH]; intros; cbn [matchChunk_loop]; [reflexivity|].
  destruct chunk as [|c rest].
  { destruct failed, failed'; reflexivity. }
  set (f1 := if negb failed && is_empty s then true else failed).
  set (f2 := if negb failed' && is_empty s' then true else failed').
  clearbody f1 f2.
  destruct (is_byte c "[").
  { destruct (class_rune f1 s) as [r1 t1], (class_rune f2 s') as [r2 t2].
    destruct (class_negated rest) as [negated chunk].
    pose proof (parse_ranges_agree fuel chunk r1 false r2 false 0) as Ha.
    destruct (parse_ranges fuel chunk r1 false 0) as [[e1|[c1 m1]]|],
             (parse_ranges fuel chunk r2 false 0) as [[e2|[c2 m2]]|];
      simpl in Ha; try contradiction; subst; try reflexivity.
    apply IH. }
  destruct (is_byte c "?").
  { destruct (any_step f1 s) as [t1 g1], (any_step f2 s') as [t2 g2]. apply IH. }
  destruct (is_byte c backslash && is_empty _); [reflexivity|].
  destruct (literal_step _ f1 s) as [t1 g1], (literal_step _ f2 s') as [t2 g2].
  apply IH.
Qed.

(** The error of [matchChunk] is the one found on the empty name. *)
Lemma matchChunk_err chunk s :
  snd (matchChunk chunk s) = snd (matchChunk chunk EmptyString).
Proof.
  pose proof (matchChunk_loop_err (S (len chunk)) chunk s false EmptyString false) as H.
  rewrite !matchChunk_total in H. simpl in H.
  destruct (matchChunk chunk s) as [[? ?] ?], (matchChunk chunk EmptyString) as [[? ?] ?].
  simpl. congruence.
Qed.

(** Once [failed] is set the chunk cannot match. *)
Lemma matchChunk_loop_failed fuel : forall chunk s t ok err,
  matchChunk_loop fuel chunk s true = Some (t, ok, err) -> ok = false.
Proof.
  induction fuel as [|fuel IH]; intros chunk s t ok err; cbn [matchChunk_loop];
    [congruence|].
  destruct chunk as [|c rest]; [congruence|].
  cbn [negb andb].
  destruct (is_byte c "[").
  { unfold class_rune. cbn [negb].
    destruct (class_negated rest) as [negated chunk].
    destruct (parse_ranges fuel chunk 0%N false 0) as [[e|[c1 m1]]|]; [congruence| |congruence].
    replace (if Bool.eqb m1 negated then true else true) with true
      by (destruct (Bool.eqb m1 negated); reflexivity).
    apply IH. }
  destruct (is_byte c "?"); [apply IH|].
  destruct (is_byte c backslash && is_empty _); [congruence|].
  apply IH.
Qed.

(** A non-empty chunk does not match the empty name. *)
Lemma matchChunk_empty_name chunk :
  is_empty chunk = false -> snd (fst (matchChunk chunk EmptyString)) = false.
Proof.
  intros Hne. pose proof (matchChunk_total chunk EmptyString) as H.
  destruct (matchChunk chunk EmptyString) as [[t ok] err]. simpl.
  destruct chunk as [|c rest]; [discriminate|].
  cbn [matchChunk_loop negb andb is_empty] in H.
  destruct (is_byte c "[").
  { unfold class_rune in H. cbn [negb] in H.
    destruct (class_negated rest) as [negated chunk].
    destruct (parse_ranges _ chunk 0%N false 0) as [[e|[c1 m1]]|]; [congruence| |congruence].
    replace (if Bool.eqb m1 negated then true else true) with true in H
      by (destruct (Bool.eqb m1 negated); reflexivity).
    eapply matchChunk_loop_failed, H. }
  destruct (is_byte c "?"); [eapply matchChunk_loop_failed, H|].
  destruct (is_byte c backslash && is_empty _); [congruence|].
  eapply matchChunk_loop_failed, H.
Qed.

(** The skipping loop only returns an error that [matchChunk] returned. *)
Lemma skip_after_star_error chunk last name e :
  skip_after_star chunk last name = SkipReturn e ->
  snd (matchChunk chunk EmptyString) = Some e.
Proof.
  induction name as [|c rest IH]; cbn [skip_after_star]; [congruence|].
  destruct (is_byte c slash); [congruence|].
  pose proof (matchChunk_err chunk rest) as Herr.
  destruct (matchChunk chunk rest) as [[t ok] err]. simpl in Herr.
  destruct ok.
  { destruct (last && _); [exact IH|congruence]. }
  destruct err as [e'|]; [|exact IH].
  intros [= ->]. congruence.
Qed.

Lemma remainder_ok_Match_loop fuel : forall pattern name,
  remainder_ok fuel pattern -> loop_ok (Match_loop fuel pattern name).
Proof.
  induction fuel as [|fuel IH]; intros pattern name Hok b e;
    cbn [Match_loop]; [congruence|].
  unfold remainder_ok in Hok. cbn [check_remainder] in Hok.
  destruct (is_empty pattern); [congruence|].
  destruct (scanChunk pattern) as [[star chunk] rest].
  destruct (star && is_empty chunk); [congruence|].
  pose proof (matchChunk_err chunk name) as Herr.
  destruct (matchChunk chunk EmptyString) as [[t0 ok0] [e0|]] eqn:H0.
  { exfalso. eapply Hok. reflexivity. }
  destruct (matchChunk chunk name) as [[t ok] err]. simpl in Herr. subst err.
  destruct (ok && _); [exact (IH rest t Hok b e)|].
  destruct (if star then _ else _) as [t'|e'|] eqn:Hskip.
  - exact (IH rest t' Hok b e).
  - destruct star; [|discriminate].
    apply skip_after_star_error in Hskip. rewrite H0 in Hskip. discriminate.
  - destruct (check_remainder fuel rest) as [[e1|]|]; [|congruence..].
    exfalso. eapply Hok. reflexivity.
Qed.

Lemma Match_loop_empty_remainder_ok fuel pattern :
  loop_ok (Match_loop fuel pattern EmptyString) -> remainder_ok fuel pattern.
Proof.
  destruct fuel as [|fuel]; intros Hok e; cbn [check_remainder]; [congruence|].
  unfold loop_ok in Hok. cbn [Match_loop] in Hok.
  destruct (is_empty pattern) eqn:Hp; [congruence|].
  destruct (scanChunk pattern) as [[star chunk] rest] eqn:Hs.
  destruct (star && is_empty chunk) eqn:Hse.
  { apply andb_true_iff in Hse as [-> Hc].
    pose proof (scanChunk_empty_chunk _ _ _ _ Hs Hc) as ->.
    apply is_empty_true in Hc as ->.
    change (matchChunk EmptyString EmptyString) with (EmptyString, true, @None error).
    destruct fuel; cbn; congruence. }
  assert (is_empty chunk = false) as Hc.
  { destruct star; [exact Hse|]. eapply scanChunk_nonempty_chunk; eauto. }
  pose proof (matchChunk_empty_name chunk Hc) as Hnok.
  destruct (matchChunk chunk EmptyString) as [[t ok] err]. simpl in Hnok. subst ok.
  cbn [andb] in Hok.
  destruct err as [e0|].
  { exfalso. eapply Hok. reflexivity. }
  replace (if star then skip_after_star chunk (is_empty rest) EmptyString else SkipExhausted)
    with SkipExhausted in Hok by (destruct star; reflexivity).
  destruct (check_remainder fuel rest) as [[e1|]|]; [|congruence..].
  exfalso. eapply Hok. reflexivity.
Qed.

(** A pattern that [Match] accepts on the empty name is accepted on every
    name: the trial match of validation finds every syntax error. *)
Theorem Match_error_free pattern name :
  snd (Match pattern EmptyString) = None -> snd (Match pattern name) = None.
Proof.
  intros H.
  pose proof (Match_total pattern EmptyString) as H0.
  pose proof (Match_total pattern name) as H1.
  assert (loop_ok (Match_loop (S (len pattern)) pattern EmptyString)) as Hok.
  { intros b e. rewrite H0. intros [= Heq]. rewrite Heq in H. discriminate. }
  apply Match_loop_empty_remainder_ok in Hok.
  pose proof (remainder_ok_Match_loop _ _ name Hok) as Hn.
  destruct (Match pattern name) as [b [e|]]; [|reflexivity].
  exfalso. exact (Hn _ _ H1).
Qed.

End path_facts.


(** * The pattern matcher *)

(** [path.Match] never reports a match together with an error. *)
Lemma Match_error_false pat name e b : path.Match pat name = (b, Some e) -> b = false.
Proof.
  intros H. pose proof (path_facts.Match_total pat name) as Ht. rewrite H in Ht.
  clear H. revert Ht. generalize (S (len pat)). intros fuel. revert pat name.
  induction fuel as [|fuel IH]; intros pat name; cbn [path.Match_loop]; [congruence|].
  destruct (is_empty pat); [congruence|].
  destruct (path.scanChunk pat) as [[star chunk] rest].
  destruct (star && is_empty chunk); [congruence|].
  destruct (path.matchChunk chunk name) as [[t ok] err].
  destruct (ok && _); [apply IH|].
  destruct err; [congruence|].
  destruct (if star then _ else _); [apply IH|congruence|].
  destruct (path.check_remainder fuel rest) as [[?|]|]; congruence.
Qed.

Lemma match_excludes_true excludes name :
  fst (match_excludes excludes name) = true <->
  Forall (fun e => glob_rejects e name) excludes.
Proof.
  induction excludes as [|pat rest IH]; cbn [match_excludes].
  { split; [constructor|reflexivity]. }
  unfold glob_rejects at 1.
  destruct (path.Match pat name) as [exclude [e|]] eqn:Hm.
  { simpl. split; [discriminate|]. intros H. inversion H as [|? ? Hr _]; subst.
    unfold glob_rejects in Hr. congruence. }
  destruct exclude.
  { simpl. split; [discriminate|]. intros H. inversion H as [|? ? Hr _]; subst.
    unfold glob_rejects in Hr. congruence. }
  rewrite IH. split; [intros H; constructor; [exact Hm|exact H]|].
  intros H. inversion H; assumption.
Qed.

Lemma match_excludes_no_error_true excludes name b e :
  match_excludes excludes name = (b, Some e) -> b = false.
Proof.
  induction excludes as [|pat rest IH]; cbn [match_excludes]; [congruence|].
  destruct (path.Match pat name) as [exclude [e'|]]; [congruence|].
  destruct exclude; [congruence|exact IH].
Qed.

Lemma match_includes_no_error_true includes excludes fname b e :
  match_includes includes excludes fname = (b, Some e) -> b = false.
Proof.
  induction includes as [|pat rest IH]; cbn [match_includes]; [congruence|].
  destruct (path.Match pat _) as [include [e'|]]; [congruence|].
  destruct include; cbn [negb]; [apply match_excludes_no_error_true|exact IH].
Qed.

(** Some exclude matching makes the exclude loop answer false. *)
Lemma match_excludes_some excludes name e :
  e ∈ excludes -> fst (path.Match e name) = true -> fst (match_excludes excludes name) = false.
Proof.
  intros Hin Hm.
  destruct (fst (match_excludes excludes name)) eqn:Hf; [|reflexivity].
  apply match_excludes_true in Hf. rewrite Forall_forall in Hf.
  specialize (Hf _ Hin). unfold glob_rejects in Hf. rewrite Hf in Hm. discriminate.
Qed.

(** The include loop, when the includes before the first match reject. *)
Lemma match_includes_first pre pat post excludes fname :
  Forall (fun p => glob_rejects p (matchName p fname)) pre ->
  glob_matches pat (matchName pat fname) ->
  match_includes (pre ++ pat :: post) excludes fname =
  match_excludes excludes (matchName pat fname).
Proof.
  intros Hpre Hpat. induction Hpre as [|p pre Hp _ IH]; cbn [app match_includes].
  - unfold glob_matches in Hpat. rewrite Hpat. reflexivity.
  - unfold glob_rejects in Hp. rewrite Hp. exact IH.
Qed.

Lemma match_includes_true includes excludes fname :
  fst (match_includes includes excludes fname) = true ->
  exists pre pat post,
    includes = pre ++ pat :: post /\
    Forall (fun p => glob_rejects p (matchName p fname)) pre /\
    glob_matches pat (matchName pat fname) /\
    Forall (fun e => glob_rejects e (matchName pat fname)) excludes.
Proof.
  induction includes as [|pat rest IH]; cbn [match_includes]; [discriminate|].
  destruct (path.Match pat (matchName pat fname)) as [include [e|]] eqn:Hm; [discriminate|].
  destruct include; cbn [negb].
  - intros H. apply match_excludes_true in H.
    exists [], pat, rest. repeat split; auto.
  - intros H. destruct (IH H) as (pre & p & post & -> & Hpre & Hp & Hex).
    exists (pat :: pre), p, post. repeat split; auto.
Qed.

(** No include matching: the answer is false whatever the excludes are. *)
Lemma match_includes_none includes excludes excludes' fname :
  Forall (fun p => fst (path.Match p (matchName p fname)) = false) includes ->
  match_includes includes excludes fname = match_includes includes excludes' fname /\
  fst (match_includes includes excludes fname) = false.
Proof.
  induction 1 as [|pat rest Hp _ IH]; cbn [match_includes]; [auto|].
  destruct (path.Match pat (matchName pat fname)) as [include [e|]]; [auto|].
  simpl in Hp. subst include. exact IH.
Qed.

(** Without malformed patterns the two loops compute [spec_matched]. *)
Lemma match_excludes_spec excludes name :
  (forall e, e ∈ excludes -> snd (path.Match e name) = None) ->
  match_excludes excludes name =
  (negb (existsb (fun e => fst (path.Match e name)) excludes), None).
Proof.
  induction excludes as [|pat rest IH]; intros Hok; cbn [match_excludes existsb];
    [reflexivity|].
  pose proof (Hok pat (list_elem_of_here _ _)) as Hp.
  destruct (path.Match pat name) as [exclude err]. simpl in Hp. subst err. cbn [fst].
  destruct exclude; [reflexivity|]. apply IH. intros e He. apply Hok. right. exact He.
Qed.

Lemma match_includes_spec includes excludes fname :
  (forall p name, p ∈ includes ++ excludes -> snd (path.Match p name) = None) ->
  match_includes includes excludes fname =
  (match List.find (fun pat => fst (path.Match pat (matchName pat fname))) includes with
   | None => false
   | Some pat => negb (existsb (fun e => fst (path.Match e (matchName pat fname))) excludes)
   end, None).
Proof.
  induction includes as [|pat rest IH]; intros Hok; cbn [match_includes List.find];
    [reflexivity|].
  pose proof (Hok pat (matchName pat fname) (list_elem_of_here _ _)) as Hp.
  destruct (path.Match pat (matchName pat fname)) as [include err]. simpl in Hp. subst err.
  cbn [fst]. destruct include; cbn [negb].
  - apply match_excludes_spec. intros e He. apply Hok. right. apply elem_of_app. auto.
  - apply IH. intros p name Hin. apply Hok. right. exact Hin.
Qed.

(** C1.  For a trigger without malformed patterns [match] returns, with a
    nil error, matched = true exactly when some include pattern matches
    and no exclude pattern matches the candidate name of the first include
    that matches ([spec_matched]).  For every trigger, matched = true
    means that there is a first include pattern that matches the file
    (the includes before it having been compared and rejected) and that
    every exclude pattern, compared with the candidate name of that
    include, rejects it.  When an exclude matches that candidate name the
    answer is not-matched, whatever includes follow the first matching
    one; and when no include matches, the answer is not-matched and is the
    same for every list of excludes, which are never consulted. *)
Theorem C1_match_first_include_then_excludes (tr : TriggerConfig) (fname : string) :
  (no_glob_error tr -> match_ tr fname = (spec_matched tr fname, None)) /\
  (fst (match_ tr fname) = true <->
   exists pre pat post,
     Includes tr = pre ++ pat :: post /\
     Forall (fun p => glob_rejects p (matchName p fname)) pre /\
     glob_matches pat (matchName pat fname) /\
     Forall (fun e => glob_rejects e (matchName pat fname)) (Excludes tr)) /\
  (forall pre pat post e,
     Includes tr = pre ++ pat :: post ->
     Forall (fun p => glob_rejects p (matchName p fname)) pre ->
     glob_matches pat (matchName pat fname) ->
     e ∈ Excludes tr ->
     fst (path.Match e (matchName pat fname)) = true ->
     fst (match_ tr fname) = false /\
     forall post', fst (match_ {| Name := Name tr; Cmd := Cmd tr; InputType := InputType tr;
                                  Includes := pre ++ pat :: post';
                                  Excludes := Excludes tr |} fname) = false) /\
  (Forall (fun p => fst (path.Match p (matchName p fname)) = false) (Includes tr) ->
   fst (match_ tr fname) = false /\
   forall excludes', match_ (with_excludes tr excludes') fname = match_ tr fname).
Proof.
  unfold match_. split; [|split; [|split]].
  - intros Hok. apply match_includes_spec, Hok.
  - split.
    + apply match_includes_true.
    + intros (pre & pat & post & -> & Hpre & Hpat & Hex).
      rewrite match_includes_first by assumption.
      apply match_excludes_true, Hex.
  - intros pre pat post e -> Hpre Hpat He Hm. cbn [Includes Excludes].
    split; [|intros post']; rewrite match_includes_first by assumption;
      eapply match_excludes_some; eauto.
  - intros Hnone. split.
    + eapply (match_includes_none _ _ []), Hnone.
    + intros excludes'. cbn [with_excludes Includes Excludes].
      eapply match_includes_none, Hnone.
Qed.

(** ** The candidate name *)

Lemma prefix_slash c rest : String.prefix "/" (String c rest) = is_byte c slash.
Proof.
  unfold is_byte, slash.
  change (String.prefix "/" (String c rest))
    with (if ascii_dec "/" c then String.prefix EmptyString rest else false).
  destruct (ascii_dec "/" c) as [<-|Hn].
  - destruct rest; reflexivity.
  - symmetry. apply Ascii.eqb_neq. congruence.
Qed.

Lemma Contains_slash pat : gostrings.Contains pat "/" = has_byte slash pat.
Proof.
  induction pat as [|c rest IH]; [reflexivity|].
  cbn [gostrings.Contains has_byte]. rewrite IH, prefix_slash. reflexivity.
Qed.

(** C3.  An include pattern without a path separator is compared with the
    base name of the file, one with a path separator with the full path:
    the result of [match] for a single include is the result of
    [path.Match] on that candidate name.  So README.md matches both
    docs/README.md and README.md, and docs/README.md does not match a
    top-level README.md. *)
Theorem C3_include_basename_or_full_path (pat fname : string) :
  (has_byte slash pat = false -> matchName pat fname = path.Base fname) /\
  (has_byte slash pat = true -> matchName pat fname = fname) /\
  match_ (trigger_of [pat] []) fname =
    (let '(include, err) := path.Match pat (matchName pat fname) in
     match err with Some e => (false, Some e) | None => (include, None) end) /\
  match_ (trigger_of ["README.md"] []) "docs/README.md" = (true, None) /\
  match_ (trigger_of ["README.md"] []) "README.md" = (true, None) /\
  match_ (trigger_of ["docs/README.md"] []) "README.md" = (false, None) /\
  match_ (trigger_of ["docs/README.md"] []) "docs/README.md" = (true, None).
Proof.
  unfold matchName. rewrite Contains_slash.
  split; [intros ->; reflexivity|].
  split; [intros ->; reflexivity|].
  split; [|repeat split; vm_compute; reflexivity].
  unfold match_. cbn [trigger_of Includes Excludes match_includes match_excludes].
  unfold matchName. rewrite Contains_slash.
  destruct (path.Match pat _) as [include [e|]]; [reflexivity|].
  destruct include; reflexivity.
Qed.

(** ** Excludes are compared with the include's candidate name *)

(** What the exclude loop is run on: the candidate name chosen by the
    include pattern that matched, not one chosen by the exclude pattern. *)
Lemma match_exclude_candidate inc exc fname :
  glob_matches inc (matchName inc fname) ->
  match_ (trigger_of [inc] [exc]) fname =
    (let '(exclude, err) := path.Match exc (matchName inc fname) in
     match err with Some e => (false, Some e) | None => (negb exclude, None) end).
Proof.
  intros Hm. unfold match_.
  cbn [trigger_of Includes Excludes match_includes match_excludes].
  rewrite Hm. cbn [negb].
  destruct (path.Match exc _) as [exclude [e|]]; [reflexivity|].
  destruct exclude; reflexivity.
Qed.

(** C2.  The exclude patterns are not given the basename-or-full-path
    rule of their own: they are compared with the candidate name chosen
    by the include pattern that matched.  With the include src/* the
    candidate name is the full path, and the exclude *_test.go, which has
    no path separator, is compared with src/a_test.go instead of the base
    name a_test.go: the file is matched, although the exclude pattern
    matches its base name.  Likewise the exclude vendor/*, which has a
    separator, is compared with the base name chosen by the include *.go. *)
Theorem C2_exclude_compared_with_include_candidate :
  let tr := trigger_of ["src/*"] ["*_test.go"] in
  let tr' := trigger_of ["*.go"] ["vendor/*"] in
  match_ tr "src/a_test.go" = (true, None) /\
  path.Match "*_test.go" (matchName "*_test.go" "src/a_test.go") = (true, None) /\
  path.Match "*_test.go" (matchName "src/*" "src/a_test.go") = (false, None) /\
  match_ tr' "vendor/a.go" = (true, None) /\
  path.Match "vendor/*" (matchName "vendor/*" "vendor/a.go") = (true, None) /\
  path.Match "vendor/*" (matchName "*.go" "vendor/a.go") = (false, None).
Proof. repeat split; vm_compute; reflexivity. Qed.

(** * Validation *)

Lemma validate_patterns_None wrap pats :
  validate_patterns wrap pats = None <-> Forall pattern_ok pats.
Proof.
  induction pats as [|pat rest IH]; cbn [validate_patterns].
  { split; [constructor|reflexivity]. }
  destruct (path.Match pat EmptyString) as [b [e|]] eqn:Hm.
  - split; [discriminate|]. intros H. inversion H as [|? ? Hp _]; subst.
    unfold pattern_ok in Hp. rewrite Hm in Hp. discriminate.
  - rewrite IH. split; [|intros H; inversion H; assumption].
    intros H. constructor; [|exact H]. unfold pattern_ok. rewrite Hm. reflexivity.
Qed.

Lemma validateTrigger_patterns tr :
  validateTrigger tr = None ->
  InputType tr = "args" /\ Forall pattern_ok (Includes tr) /\ Forall pattern_ok (Excludes tr).
Proof.
  unfold validateTrigger.
  destruct (is_empty (Name tr)); [discriminate|].
  destruct (gostrings.ContainsAny _ _); [discriminate|].
  destruct (String.eqb_spec (InputType tr) "args") as [Hty|]; [|discriminate].
  cbn [negb].
  destruct (validate_patterns _ (Includes tr)) eqn:Hi; [discriminate|].
  apply validate_patterns_None in Hi. intros He. apply validate_patterns_None in He.
  auto.
Qed.

Lemma validateConfig_loop_triggers triggers : forall nameMap,
  validateConfig_loop triggers nameMap = None ->
  Forall (fun tr => validateTrigger tr = None) triggers.
Proof.
  induction triggers as [|t rest IH]; intros nameMap; cbn [validateConfig_loop];
    [constructor|].
  destruct (map_get nameMap (Name t)); [discriminate|].
  destruct (validateTrigger t) eqn:Ht; [discriminate|].
  intros H. constructor; [exact Ht|]. eapply IH, H.
Qed.

(** ** Validated patterns never fail in the matcher *)

Lemma match_excludes_no_error excludes name :
  Forall pattern_ok excludes -> snd (match_excludes excludes name) = None.
Proof.
  induction 1 as [|pat rest Hp _ IH]; cbn [match_excludes]; [reflexivity|].
  pose proof (path_facts.Match_error_free pat name Hp) as Hn.
  destruct (path.Match pat name) as [exclude err]. simpl in Hn. subst err.
  destruct exclude; [reflexivity|exact IH].
Qed.

Lemma match_includes_no_error includes excludes fname :
  Forall pattern_ok includes -> Forall pattern_ok excludes ->
  snd (match_includes includes excludes fname) = None.
Proof.
  intros Hi He. induction Hi as [|pat rest Hp _ IH]; cbn [match_includes]; [reflexivity|].
  pose proof (path_facts.Match_error_free pat (matchName pat fname) Hp) as Hn.
  destruct (path.Match pat _) as [include err]. simpl in Hn. subst err.
  destruct include; cbn [negb]; [apply match_excludes_no_error, He|exact IH].
Qed.

Lemma validateTrigger_match_no_error tr fname :
  validateTrigger tr = None -> snd (match_ tr fname) = None.
Proof.
  intros H. apply validateTrigger_patterns in H as (_ & Hi & He).
  apply match_includes_no_error; assumption.
Qed.

(** C10.  For a configuration that validation accepts, [match] returns a
    nil error for every trigger of the configuration and every file name:
    the trial match of each pattern against the empty string has already
    found every syntax error [path.Match] can report. *)
Theorem C10_validated_match_never_errors
  (cfg : PreflightConfig) (i : nat) (tr : TriggerConfig) (fname : string) :
  validateConfig cfg = None ->
  Triggers cfg !! i = Some tr ->
  snd (match_ tr fname) = None.
Proof.
  intros Hv Hi. apply validateTrigger_match_no_error.
  apply validateConfig_loop_triggers in Hv.
  rewrite Forall_lookup in Hv. exact (Hv i tr Hi).
Qed.

Lemma C10_validated_match_never_errors_witness :
  validateConfig sample_config = None /\
  Triggers sample_config !! 0 = Some lint_trigger /\
  snd (match_ lint_trigger "cmd/x/main.go") = None.
Proof.
  split; [vm_compute; reflexivity|]. split; [reflexivity|].
  apply (C10_validated_match_never_errors sample_config 0 lint_trigger "cmd/x/main.go");
    [vm_compute; reflexivity | reflexivity].
Defined.

(** ** The order of the checks *)

Lemma first_violation_app a b :
  first_violation (a ++ b) =
  match first_violation a with Some e => Some e | None => first_violation b end.
Proof. induction a as [|[e|] a IH]; simpl; auto. Qed.

Lemma first_violation_None checks :
  first_violation checks = None <-> Forall (fun c => c = None) checks.
Proof.
  induction checks as [|[e|] rest IH]; simpl.
  - split; [constructor|reflexivity].
  - split; [discriminate|]. intros H. inversion H. discriminate.
  - rewrite IH. split; [intros; constructor; auto|]. intros H. inversion H. assumption.
Qed.

Lemma first_violation_Some checks e :
  first_violation checks = Some e ->
  exists pre post, checks = pre ++ Some e :: post /\ Forall (fun c => c = None) pre.
Proof.
  induction checks as [|[e'|] rest IH]; simpl; [discriminate| |].
  - intros [= ->]. exists [], rest. split; [reflexivity|constructor].
  - intros H. destruct (IH H) as (pre & post & -> & Hpre).
    exists (None :: pre), post. split; [reflexivity|]. constructor; auto.
Qed.

Lemma validate_patterns_first wrap pats :
  validate_patterns wrap pats = first_violation (map (syntax_check wrap) pats).
Proof.
  induction pats as [|pat rest IH]; cbn [validate_patterns map first_violation]; [reflexivity|].
  unfold syntax_check at 1.
  destruct (path.Match pat EmptyString) as [b [e|]]; simpl; [reflexivity|exact IH].
Qed.

Lemma validateTrigger_first earlier t :
  validateTrigger t = first_violation (List.tl (trigger_checks earlier t)).
Proof.
  unfold validateTrigger, trigger_checks, InputTypeArgs. cbn [List.tl app first_violation].
  destruct (is_empty (Name t)); [reflexivity|].
  destruct (gostrings.ContainsAny _ _); [reflexivity|].
  destruct (String.eqb (InputType t) "args"); [|reflexivity].
  cbn [negb]. rewrite first_violation_app, !validate_patterns_first. reflexivity.
Qed.

Lemma validateConfig_loop_first triggers : forall earlier nameMap,
  (forall n, map_get nameMap n = true <-> n ∈ earlier) ->
  validateConfig_loop triggers nameMap = first_violation (config_checks earlier triggers).
Proof.
  induction triggers as [|t rest IH]; intros earlier nameMap Hinv;
    cbn [validateConfig_loop config_checks]; [reflexivity|].
  rewrite first_violation_app.
  pose proof (validateTrigger_first earlier t) as Ht.
  unfold trigger_checks in *. cbn [app List.tl first_violation] in *.
  destruct (map_get nameMap (Name t)) eqn:Hdup.
  - apply Hinv in Hdup. rewrite bool_decide_eq_true_2 by exact Hdup. reflexivity.
  - rewrite bool_decide_eq_false_2.
    2:{ intros Hin. apply Hinv in Hin. congruence. }
    rewrite <- Ht. destruct (validateTrigger t); [reflexivity|].
    apply IH. intros n. unfold map_get.
    destruct (decide (n = Name t)) as [->|Hne].
    + rewrite lookup_insert_eq. simpl. split; [|reflexivity].
      intros _. apply elem_of_app. right. constructor.
    + rewrite lookup_insert_ne by congruence. fold (map_get nameMap n).
      rewrite Hinv, elem_of_app, list_elem_of_singleton. tauto.
Qed.

(** C7.  [validateConfig] returns the first violation, the checks being
    taken trigger by trigger and, for each trigger, in the order duplicate
    name, empty or whitespace-containing name, input type, each include
    pattern, each exclude pattern.  It returns one error at most: the
    checks before it pass; and it returns no error exactly when every
    check of every trigger passes. *)
Theorem C7_validateConfig_first_violation (cfg : PreflightConfig) :
  validateConfig cfg = first_violation (config_checks [] (Triggers cfg)) /\
  (validateConfig cfg = None <->
   Forall (fun c => c = None) (config_checks [] (Triggers cfg))) /\
  (forall e, validateConfig cfg = Some e ->
     exists pre post,
       config_checks [] (Triggers cfg) = pre ++ Some e :: post /\
       Forall (fun c => c = None) pre).
Proof.
  assert (validateConfig cfg = first_violation (config_checks [] (Triggers cfg))) as H.
  { unfold validateConfig. apply validateConfig_loop_first.
    intros n. unfold map_get. rewrite lookup_empty. simpl.
    split; [discriminate|]. intros Hn. inversion Hn. }
  split; [exact H|]. rewrite H. split.
  - apply first_violation_None.
  - apply first_violation_Some.
Qed.


(** * Selection of the triggers *)

Lemma allTriggerNames_fold (triggers : list TriggerConfig) : forall acc,
  foldl (fun names tr => names ++ [Name tr]) acc triggers = acc ++ (Name <$> triggers).
Proof.
  induction triggers as [|t rest IH]; intros acc; simpl.
  - rewrite app_nil_r. reflexivity.
  - rewrite IH, <- app_assoc. reflexivity.
Qed.

Lemma allTriggerNames_names cfg : allTriggerNames cfg = config_names cfg.
Proof. unfold allTriggerNames. rewrite allTriggerNames_fold. reflexivity. Qed.

Lemma cfgTriggerMap_fold (triggers : list TriggerConfig) : forall (m : gmap string TriggerConfig) k,
  is_Some (foldl (fun m tr => <[Name tr := tr]> m) m triggers !! k) <->
  is_Some (m !! k) \/ k ∈ (Name <$> triggers).
Proof.
  induction triggers as [|t rest IH]; intros m k; simpl.
  - rewrite elem_of_nil. tauto.
  - rewrite IH, elem_of_cons.
    destruct (decide (Name t = k)) as [<-|Hne].
    + rewrite lookup_insert_eq. split; [auto|]. intros _. left. eauto.
    + rewrite lookup_insert_ne by exact Hne. split; [tauto|].
      intros [?|[?|?]]; auto. congruence.
Qed.

Lemma cfgTriggerMap_known cfg k :
  is_Some (cfgTriggerMap cfg !! k) <-> k ∈ config_names cfg.
Proof.
  unfold cfgTriggerMap. rewrite cfgTriggerMap_fold, lookup_empty.
  split; [|auto]. intros [[? ?]|?]; [discriminate|assumption].
Qed.

(** The loop that fills [enabledTriggers] stops at the first unknown
    name; otherwise it adds exactly the given names. *)
Lemma enable_triggers_spec (m : gmap string TriggerConfig) names : forall acc,
  match enable_triggers m names acc with
  | inl e => exists pre n post,
      names = pre ++ n :: post /\ Forall (fun x => is_Some (m !! x)) pre /\
      m !! n = None /\ e = ErrNoSuchTrigger n
  | inr en =>
      Forall (fun x => is_Some (m !! x)) names /\
      forall k, en !! k = if bool_decide (k ∈ names) then Some true else acc !! k
  end.
Proof.
  induction names as [|n rest IH]; intros acc; cbn [enable_triggers].
  { split; [constructor|]. intros k. rewrite bool_decide_eq_false_2; [reflexivity|].
    apply not_elem_of_nil. }
  destruct (m !! n) as [v|] eqn:Hn.
  - specialize (IH (<[n := true]> acc)).
    destruct (enable_triggers m rest _) as [e|en].
    + destruct IH as (pre & x & post & -> & Hpre & Hx & ->).
      exists (n :: pre), x, post. split; [reflexivity|]. split; [constructor; eauto|]. auto.
    + destruct IH as [Hall Hk]. split; [constructor; eauto|].
      intros k. rewrite Hk.
      destruct (decide (k = n)) as [->|Hne].
      * rewrite (bool_decide_eq_true_2 (n ∈ n :: rest)) by constructor.
        rewrite lookup_insert_eq. destruct (bool_decide _); reflexivity.
      * rewrite lookup_insert_ne by congruence.
        rewrite (bool_decide_ext (k ∈ n :: rest) (k ∈ rest)); [reflexivity|].
        rewrite elem_of_cons. tauto.
  - exists [], n, rest. repeat split; auto.
Qed.

Lemma map_get_enabled (en : gmap string bool) (names : list string) (k : string) :
  (forall k, en !! k = if bool_decide (k ∈ names) then Some true else (∅ : gmap string bool) !! k) ->
  map_get en k = bool_decide (k ∈ names).
Proof.
  intros H. unfold map_get. rewrite H. destruct (bool_decide _); [reflexivity|].
  rewrite lookup_empty. reflexivity.
Qed.

(** When every given name is known, the selection succeeds and enables
    the requested triggers and no other. *)
Lemma selectTriggers_known cfg names :
  Forall (fun n => n ∈ config_names cfg) names ->
  exists enabled,
    selectTriggers cfg names = inr enabled /\
    (forall k, map_get enabled k = true ->
       k ∈ (if Nat.eqb (length names) 0 then config_names cfg else names)) /\
    (forall tr, tr ∈ Triggers cfg -> map_get enabled (Name tr) = is_requested names tr).
Proof.
  intros Hknown. unfold selectTriggers.
  set (names' := if Nat.eqb (length names) 0 then allTriggerNames cfg else names).
  assert (Forall (fun n => n ∈ config_names cfg) names') as Hknown'.
  { unfold names'. destruct names; simpl; [|exact Hknown].
    rewrite allTriggerNames_names. apply Forall_forall. auto. }
  pose proof (enable_triggers_spec (cfgTriggerMap cfg) names' ∅) as Hs.
  destruct (enable_triggers _ names' ∅) as [e|en].
  { destruct Hs as (pre & n & post & Heq & _ & Hn & _). exfalso.
    rewrite Heq in Hknown'. apply Forall_app in Hknown' as [_ Hk].
    inversion Hk as [|? ? Hin _]; subst.
    apply cfgTriggerMap_known in Hin. rewrite Hn in Hin. destruct Hin; discriminate. }
  destruct Hs as [_ Hk]. exists en. split; [reflexivity|].
  pose proof (fun k => map_get_enabled en names' k Hk) as Hget. split.
  - intros k. rewrite Hget. intros Hin%bool_decide_eq_true.
    unfold names' in Hin. rewrite allTriggerNames_names in Hin. exact Hin.
  - intros tr Htr. rewrite Hget. unfold names', is_requested.
    destruct names as [|n rest]; [|reflexivity]. simpl.
    rewrite allTriggerNames_names. apply bool_decide_eq_true_2.
    unfold config_names. apply list_elem_of_fmap. eauto.
Qed.

(** An unknown name makes the selection fail on the first such name. *)
Lemma selectTriggers_unknown cfg names n :
  n ∈ names -> n ∉ config_names cfg ->
  exists n', (n' ∈ names) /\ (n' ∉ config_names cfg) /\
             selectTriggers cfg names = inl (ErrNoSuchTrigger n').
Proof.
  intros Hin Hunk. unfold selectTriggers.
  destruct names as [|x rest]; [inversion Hin|]. cbn [length Nat.eqb].
  pose proof (enable_triggers_spec (cfgTriggerMap cfg) (x :: rest) ∅) as Hs.
  destruct (enable_triggers _ _ ∅) as [e|en].
  - destruct Hs as (pre & n' & post & Heq & _ & Hn & ->).
    exists n'. split; [rewrite Heq; apply elem_of_app; right; constructor|].
    split; [|reflexivity].
    intros Hk%cfgTriggerMap_known. rewrite Hn in Hk. destruct Hk; discriminate.
  - destruct Hs as [Hall _]. exfalso. rewrite Forall_forall in Hall.
    apply Hunk, cfgTriggerMap_known, Hall, Hin.
Qed.

(** C6.  With no requested name every configured trigger is eligible.
    With a requested name that the configuration does not have, the run
    ends in the fatal error for such a name with no event at all, so
    before any subprocess is spawned.  With requested names that all
    exist, the eligible triggers are exactly the named ones. *)
Theorem C6_trigger_selection (cfg : PreflightConfig) (triggerNames : list string) :
  (triggerNames = [] ->
   exists enabled, selectTriggers cfg triggerNames = inr enabled /\
     forall tr, tr ∈ Triggers cfg -> map_get enabled (Name tr) = true) /\
  (forall n, n ∈ triggerNames -> n ∉ config_names cfg ->
   exists n', (n' ∈ triggerNames) /\ (n' ∉ config_names cfg) /\
     forall BashQuote cmdRun changed dryRun verbose,
       runPreflight BashQuote cmdRun changed dryRun verbose cfg triggerNames =
       ([], Fatal (ErrNoSuchTrigger n'))) /\
  (triggerNames <> [] ->
   Forall (fun n => n ∈ config_names cfg) triggerNames ->
   exists enabled, selectTriggers cfg triggerNames = inr enabled /\
     forall tr, tr ∈ Triggers cfg ->
       (map_get enabled (Name tr) = true <-> Name tr ∈ triggerNames)).
Proof.
  split; [|split].
  - intros ->. destruct (selectTriggers_known cfg []) as (en & Hs & _ & Hreq); [constructor|].
    exists en. split; [exact Hs|]. intros tr Htr. rewrite (Hreq tr Htr). reflexivity.
  - intros n Hin Hunk.
    destruct (selectTriggers_unknown cfg triggerNames n Hin Hunk) as (n' & H1 & H2 & Hs).
    exists n'. repeat split; auto. intros. unfold runPreflight. rewrite Hs. reflexivity.
  - intros Hne Hknown.
    destruct (selectTriggers_known cfg triggerNames Hknown) as (en & Hs & _ & Hreq).
    exists en. split; [exact Hs|]. intros tr Htr. rewrite (Hreq tr Htr).
    unfold is_requested. destruct triggerNames; [congruence|].
    apply bool_decide_eq_true.
Qed.

(** * The trigger loop *)

Lemma collect_fnames_inr tr files : forall fnames res,
  collect_fnames tr files fnames = inr res -> res = fnames ++ matched_files tr files.
Proof.
  induction files as [|f rest IH]; intros fnames res; cbn [collect_fnames matched_files List.filter].
  { intros [= <-]. rewrite app_nil_r. reflexivity. }
  destruct (match_ tr f) as [matched [e|]]; [discriminate|].
  intros H. apply IH in H. subst res. cbn [fst].
  destruct matched; [rewrite <- app_assoc|]; reflexivity.
Qed.

Lemma collect_fnames_no_error tr files : forall fnames,
  (forall f, snd (match_ tr f) = None) ->
  collect_fnames tr files fnames = inr (fnames ++ matched_files tr files).
Proof.
  intros fnames Hok. destruct (collect_fnames tr files fnames) as [e|res] eqn:Hc.
  - exfalso. revert fnames Hc. induction files as [|f rest IH]; intros fnames;
      cbn [collect_fnames]; [discriminate|].
    specialize (Hok f) as Hf. destruct (match_ tr f) as [matched err]. simpl in Hf. subst err.
    apply IH.
  - apply collect_fnames_inr in Hc. congruence.
Qed.

Section RunFacts.

Variable BashQuote : list string -> list string.
Variable cmdRun : nat -> list string -> bool.
Variable changed : list string.
Variable dryRun verbose : bool.

Lemma spawn_count_verbose tr (tail : list (TriggerConfig * event)) :
  spawn_count (verbose_events changed verbose tr ++ tail) = spawn_count tail.
Proof. unfold verbose_events. destruct verbose; reflexivity. Qed.

Lemma any_failed_app a b : any_failed (a ++ b) = any_failed a || any_failed b.
Proof. apply existsb_app. Qed.

Lemma any_failed_verbose tr : any_failed (verbose_events changed verbose tr) = false.
Proof. unfold verbose_events. destruct verbose; reflexivity. Qed.

(** The state after the verbose line of a trigger. *)
Lemma verbose_state tr st :
  (if verbose
   then {| hasError := hasError st;
           trace := (tr, EvVerbose (Name tr) (gostrings.Join (matched_files tr changed) ", "))
                    :: trace st |}
   else st) =
  {| hasError := hasError st; trace := rev (verbose_events changed verbose tr) ++ trace st |}.
Proof. unfold verbose_events. destruct verbose, st; reflexivity. Qed.

(** The loop over validated triggers never ends in a fatal error, and
    its events are those of the triggers that run, in order. *)
Lemma run_triggers_validated triggers : forall enabled st,
  Forall (fun tr => validateTrigger tr = None) triggers ->
  run_triggers BashQuote cmdRun changed dryRun verbose triggers enabled st =
  ({| hasError :=
        hasError st ||
        any_failed (expected_trace BashQuote cmdRun changed dryRun verbose (spawn_count (trace st))
                                   (List.filter (runs enabled changed) triggers));
      trace :=
        rev (expected_trace BashQuote cmdRun changed dryRun verbose (spawn_count (trace st))
                            (List.filter (runs enabled changed) triggers)) ++ trace st |},
   None).
Proof.
  induction triggers as [|tr rest IH]; intros enabled st Hv; cbn [run_triggers List.filter].
  { cbn. rewrite orb_false_r. destruct st; reflexivity. }
  inversion Hv as [|? ? Htr Hrest]; subst.
  destruct (map_get enabled (Name tr)) eqn:Hen; cbn [negb].
  2:{ replace (runs enabled changed tr) with false by (unfold runs; rewrite Hen; reflexivity).
      apply IH, Hrest. }
  rewrite (collect_fnames_no_error tr changed [])
    by (intros f; apply validateTrigger_match_no_error, Htr).
  cbn [app]. destruct (Nat.eqb (length (matched_files tr changed)) 0) eqn:Hlen.
  { replace (runs enabled changed tr) with false
      by (unfold runs; rewrite Hen, Hlen; reflexivity).
    apply IH, Hrest. }
  replace (runs enabled changed tr) with true
    by (unfold runs; rewrite Hen, Hlen; reflexivity).
  apply validateTrigger_patterns in Htr as (Hty & _ & _).
  rewrite Hty, String.eqb_refl.
  rewrite verbose_state. cbn [hasError trace expected_trace].
  fold (cmdArgs_of changed tr).
  assert (spawn_count (rev (verbose_events changed verbose tr) ++ trace st) = spawn_count (trace st)) as Hcount.
  { unfold verbose_events. destruct verbose; reflexivity. }
  destruct dryRun.
  - rewrite IH by exact Hrest. cbn [hasError trace].
    change (spawn_count ((tr, EvWouldRun (Name tr) (gostrings.Join (BashQuote (cmdArgs_of changed tr)) " "))
                         :: rev (verbose_events changed verbose tr) ++ trace st))
      with (spawn_count (rev (verbose_events changed verbose tr) ++ trace st)).
    rewrite Hcount. f_equal. f_equal.
    + rewrite any_failed_app, any_failed_verbose. reflexivity.
    + rewrite rev_app_distr. cbn [rev]. rewrite <- !app_assoc. reflexivity.
  - rewrite IH by exact Hrest. cbn [hasError trace].
    rewrite Hcount.
    change (spawn_count ((tr, EvSpawn (cmdArgs_of changed tr) (cmdRun (spawn_count (trace st)) (cmdArgs_of changed tr)))
                         :: rev (verbose_events changed verbose tr) ++ trace st))
      with (S (spawn_count (rev (verbose_events changed verbose tr) ++ trace st))).
    rewrite Hcount. f_equal. f_equal.
    + rewrite any_failed_app, any_failed_verbose.
      cbn [any_failed existsb snd is_failed_spawn orb].
      destruct (cmdRun _ _), (hasError st); reflexivity.
    + rewrite rev_app_distr. cbn [rev]. rewrite <- !app_assoc. reflexivity.
Qed.

Lemma actions_app a b : actions (a ++ b) = actions a ++ actions b.
Proof. apply List.filter_app. Qed.

(** The loop only adds events of eligible triggers with matched files,
    and its commands follow the order of the triggers. *)
Lemma run_triggers_events triggers : forall enabled st st' err,
  run_triggers BashQuote cmdRun changed dryRun verbose triggers enabled st = (st', err) ->
  exists evs,
    trace st' = rev evs ++ trace st /\
    Forall (event_ok BashQuote changed dryRun verbose enabled) evs /\
    sublist (map fst (actions evs)) triggers.
Proof.
  induction triggers as [|tr rest IH]; intros enabled st st' err; cbn [run_triggers].
  { intros [= <- <-]. exists []. repeat split; constructor. }
  destruct (map_get enabled (Name tr)) eqn:Hen; cbn [negb].
  2:{ intros H. destruct (IH _ _ _ _ H) as (evs & Ht & Hok & Hsub).
      exists evs. repeat split; auto. apply sublist_cons, Hsub. }
  destruct (collect_fnames tr changed []) as [e|fnames] eqn:Hc.
  { intros [= <- <-]. exists []. repeat split; try constructor. apply sublist_nil_l. }
  apply collect_fnames_inr in Hc. cbn [app] in Hc. subst fnames.
  destruct (Nat.eqb (length (matched_files tr changed)) 0) eqn:Hlen.
  { intros H. destruct (IH _ _ _ _ H) as (evs & Ht & Hok & Hsub).
    exists evs. repeat split; auto. apply sublist_cons, Hsub. }
  assert (matched_files tr changed <> []) as Hne.
  { intros Heq. rewrite Heq in Hlen. discriminate. }
  rewrite verbose_state. fold (cmdArgs_of changed tr).
  assert (Forall (event_ok BashQuote changed dryRun verbose enabled) (verbose_events changed verbose tr)) as Hvok.
  { unfold verbose_events. destruct verbose eqn:Hv; constructor; [|constructor].
    repeat split; auto. }
  assert (actions (verbose_events changed verbose tr) = []) as Hva.
  { unfold verbose_events. destruct verbose; reflexivity. }
  destruct (String.eqb (InputType tr) "args").
  2:{ intros [= <- <-]. exists (verbose_events changed verbose tr). cbn [trace].
      repeat split; auto. rewrite Hva. apply sublist_nil_l. }
  cbn [hasError trace].
  destruct dryRun eqn:Hdry.
  - intros H. destruct (IH _ _ _ _ H) as (evs & Ht & Hok & Hsub). cbn [trace] in Ht.
    exists (verbose_events changed verbose tr ++
            (tr, EvWouldRun (Name tr) (gostrings.Join (BashQuote (cmdArgs_of changed tr)) " ")) :: evs).
    split; [|split].
    + rewrite Ht, rev_app_distr. cbn [rev]. rewrite <- !app_assoc. reflexivity.
    + apply Forall_app. split; [exact Hvok|]. constructor; [|exact Hok].
      repeat split; auto.
    + rewrite actions_app, Hva. cbn. apply sublist_skip, Hsub.
  - intros H. destruct (IH _ _ _ _ H) as (evs & Ht & Hok & Hsub). cbn [trace] in Ht.
    exists (verbose_events changed verbose tr ++
            (tr, EvSpawn (cmdArgs_of changed tr)
                   (cmdRun (spawn_count (rev (verbose_events changed verbose tr) ++ trace st)) (cmdArgs_of changed tr)))
            :: evs).
    split; [|split].
    + rewrite Ht, rev_app_distr. cbn [rev]. rewrite <- !app_assoc. reflexivity.
    + apply Forall_app. split; [exact Hvok|]. constructor; [|exact Hok].
      repeat split; auto.
    + rewrite actions_app, Hva. cbn. apply sublist_skip, Hsub.
Qed.

End RunFacts.


(** * The run as a whole *)

Lemma selectTriggers_inr cfg names enabled :
  selectTriggers cfg names = inr enabled ->
  Forall (fun n => n ∈ config_names cfg) names /\
  forall tr, map_get enabled (Name tr) = true -> is_requested names tr = true.
Proof.
  unfold selectTriggers. intros Hs.
  pose proof (enable_triggers_spec (cfgTriggerMap cfg)
                (if Nat.eqb (length names) 0 then allTriggerNames cfg else names) ∅) as Hspec.
  rewrite Hs in Hspec. destruct Hspec as [Hall Hk].
  destruct names as [|n rest]; cbn [length Nat.eqb] in *.
  { split; [constructor|reflexivity]. }
  split.
  - eapply Forall_impl; [exact Hall|]. intros x. apply cfgTriggerMap_known.
  - intros tr. rewrite (map_get_enabled enabled (n :: rest) _ Hk). auto.
Qed.

Section RunTheorems.

Variable BashQuote : list string -> list string.
Variable cmdRun : nat -> list string -> bool.
Variable changed : list string.
Variable verbose : bool.

Lemma spawns_expected_trace trs : forall k,
  spawns (expected_trace BashQuote cmdRun changed false verbose k trs) =
  expected_spawns cmdRun changed k trs.
Proof.
  induction trs as [|tr rest IH]; intros k; cbn [expected_trace expected_spawns]; [reflexivity|].
  unfold spawns. rewrite List.filter_app. cbn [List.filter snd is_spawn].
  fold (spawns (expected_trace BashQuote cmdRun changed false verbose (S k) rest)).
  rewrite IH. unfold verbose_events. destruct verbose; reflexivity.
Qed.

Lemma would_runs_expected_trace trs : forall k,
  would_runs (expected_trace BashQuote cmdRun changed true verbose k trs) =
  expected_would_run BashQuote changed trs /\
  spawns (expected_trace BashQuote cmdRun changed true verbose k trs) = [] /\
  any_failed (expected_trace BashQuote cmdRun changed true verbose k trs) = false.
Proof.
  induction trs as [|tr rest IH]; intros k; cbn [expected_trace expected_would_run map];
    [auto|].
  destruct (IH k) as (H1 & H2 & H3).
  unfold would_runs, spawns. rewrite !List.filter_app, any_failed_app.
  cbn [List.filter snd is_spawn is_would_run any_failed existsb is_failed_spawn].
  fold (would_runs (expected_trace BashQuote cmdRun changed true verbose k rest)).
  fold (spawns (expected_trace BashQuote cmdRun changed true verbose k rest)).
  fold (any_failed (expected_trace BashQuote cmdRun changed true verbose k rest)).
  rewrite H1, H2, H3. unfold verbose_events. destruct verbose; auto.
Qed.

Lemma expected_spawns_triggers trs : forall k,
  map fst (expected_spawns cmdRun changed k trs) = trs.
Proof.
  induction trs as [|tr rest IH]; intros k; cbn [expected_spawns map fst]; [reflexivity|].
  rewrite IH. reflexivity.
Qed.

Lemma actions_expected_trace dryRun trs : forall k,
  map fst (actions (expected_trace BashQuote cmdRun changed dryRun verbose k trs)) = trs.
Proof.
  induction trs as [|tr rest IH]; intros k; cbn [expected_trace]; [reflexivity|].
  unfold actions. rewrite List.filter_app.
  replace (List.filter (fun te => is_action (snd te)) (verbose_events changed verbose tr))
    with (@nil (TriggerConfig * event))
    by (unfold verbose_events; destruct verbose; reflexivity).
  destruct dryRun; cbn [app List.filter snd is_action is_spawn is_would_run orb map fst];
    f_equal; apply IH.
Qed.

Lemma any_failed_In evs :
  any_failed evs = true <-> exists tr cmdArgs, In (tr, EvSpawn cmdArgs true) evs.
Proof.
  unfold any_failed. rewrite existsb_exists. split.
  - intros ([tr ev] & Hin & Hf). destruct ev as [| |args [|]]; try discriminate. eauto.
  - intros (tr & args & Hin). exists (tr, EvSpawn args true). auto.
Qed.

(** The run of a validated configuration with known names. *)
Lemma runPreflight_validated dryRun cfg names :
  validateConfig cfg = None ->
  Forall (fun n => n ∈ config_names cfg) names ->
  runPreflight BashQuote cmdRun changed dryRun verbose cfg names =
  (expected_trace BashQuote cmdRun changed dryRun verbose 0 (to_run cfg names changed),
   if any_failed (expected_trace BashQuote cmdRun changed dryRun verbose 0
                                 (to_run cfg names changed))
   then ExitFailure else ExitSuccess).
Proof.
  intros Hv Hknown. unfold runPreflight.
  destruct (selectTriggers_known cfg names Hknown) as (en & -> & _ & Hreq).
  apply validateConfig_loop_triggers in Hv.
  rewrite run_triggers_validated by exact Hv.
  cbn [hasError trace spawn_count List.filter length orb].
  rewrite app_nil_r, rev_involutive.
  replace (List.filter (runs en changed) (Triggers cfg)) with (to_run cfg names changed).
  { reflexivity. }
  unfold to_run. apply List.filter_ext_in. intros tr Hin.
  unfold runs. rewrite Hreq; [reflexivity|]. apply list_elem_of_In, Hin.
Qed.

(** The events of any run. *)
Lemma runPreflight_events dryRun cfg names :
  let res := runPreflight BashQuote cmdRun changed dryRun verbose cfg names in
  sublist (map fst (actions (fst res))) (Triggers cfg) /\
  Forall (fun te =>
            is_requested names (fst te) = true /\
            matched_files (fst te) changed <> [] /\
            match snd te with
            | EvSpawn cmdArgs _ => dryRun = false /\ cmdArgs = cmdArgs_of changed (fst te)
            | EvWouldRun name cmdline =>
                dryRun = true /\ name = Name (fst te) /\
                cmdline = gostrings.Join (BashQuote (cmdArgs_of changed (fst te))) " "
            | EvVerbose _ _ => verbose = true
            end) (fst res).
Proof.
  unfold runPreflight. destruct (selectTriggers cfg names) as [e|en] eqn:Hs.
  { cbn. split; [apply sublist_nil_l|constructor]. }
  apply selectTriggers_inr in Hs as [_ Hreq].
  destruct (run_triggers _ _ _ _ _ _ _ _) as [st err] eqn:Hrun.
  apply run_triggers_events in Hrun as (evs & Ht & Hok & Hsub).
  cbn [trace] in Ht. rewrite app_nil_r in Ht.
  assert (rev (trace st) = evs) as Hevs by (rewrite Ht; apply rev_involutive).
  destruct err as [e|]; cbn [fst]; rewrite Hevs; (split; [exact Hsub|]);
    (eapply Forall_impl; [exact Hok|]);
    intros [tr ev] (H1 & H2 & H3); cbn [fst snd] in *; auto.
Qed.

End RunTheorems.

(** C5.  In a live run of a validated configuration, the subprocesses
    spawned are those of all the triggers that are requested and match a
    changed file, once each and in order, whichever of them fail: a failure
    does not stop the loop.  The run ends with the failure status exactly
    when one of the spawned subprocesses failed, and with success
    otherwise. *)
Theorem C5_failure_does_not_stop_later_triggers
  (BashQuote : list string -> list string) (cmdRun : nat -> list string -> bool)
  (changed : list string) (verbose : bool)
  (cfg : PreflightConfig) (triggerNames : list string) :
  validateConfig cfg = None ->
  Forall (fun n => n ∈ config_names cfg) triggerNames ->
  let res := runPreflight BashQuote cmdRun changed false verbose cfg triggerNames in
  spawns (fst res) = expected_spawns cmdRun changed 0 (to_run cfg triggerNames changed) /\
  map fst (spawns (fst res)) = to_run cfg triggerNames changed /\
  (snd res = ExitFailure <-> exists tr cmdArgs, In (tr, EvSpawn cmdArgs true) (fst res)) /\
  (snd res = ExitSuccess <-> ~ exists tr cmdArgs, In (tr, EvSpawn cmdArgs true) (fst res)).
Proof.
  intros Hv Hknown res. subst res.
  rewrite (runPreflight_validated BashQuote cmdRun changed verbose false cfg triggerNames Hv Hknown).
  cbn [fst snd]. rewrite spawns_expected_trace, expected_spawns_triggers.
  split; [reflexivity|]. split; [reflexivity|].
  rewrite <- any_failed_In. destruct (any_failed _); split; split; congruence.
Qed.

(** C8.  In every run, the events (verbose line, would-run line,
    subprocess) belong to requested triggers that match at least one
    changed file: a trigger without a matched file is skipped entirely.  A
    subprocess is spawned only when dry-run is off, so a dry run spawns
    nothing.  For a validated configuration the run never ends in a fatal
    error, and its dry run prints one quoted command line for each
    requested trigger with a matched file, in order, and ends with
    success. *)
Theorem C8_spawn_only_when_matched_and_live
  (BashQuote : list string -> list string) (cmdRun : nat -> list string -> bool)
  (changed : list string) (dryRun verbose : bool)
  (cfg : PreflightConfig) (triggerNames : list string) :
  let res := runPreflight BashQuote cmdRun changed dryRun verbose cfg triggerNames in
  (forall tr ev, In (tr, ev) (fst res) ->
     is_requested triggerNames tr = true /\ matched_files tr changed <> []) /\
  (forall tr cmdArgs failed, In (tr, EvSpawn cmdArgs failed) (fst res) ->
     dryRun = false /\ cmdArgs = Cmd tr ++ matched_files tr changed) /\
  (dryRun = true -> spawns (fst res) = []) /\
  (validateConfig cfg = None ->
   Forall (fun n => n ∈ config_names cfg) triggerNames ->
   (forall e, snd res <> Fatal e) /\
   (dryRun = true ->
    would_runs (fst res) =
    expected_would_run BashQuote changed (to_run cfg triggerNames changed) /\
    snd res = ExitSuccess)).
Proof.
  intros res.
  pose proof (runPreflight_events BashQuote cmdRun changed verbose dryRun cfg triggerNames)
    as [_ Hev].
  fold res in Hev. rewrite Forall_forall in Hev.
  assert (forall tr cmdArgs failed, In (tr, EvSpawn cmdArgs failed) (fst res) ->
            dryRun = false /\ cmdArgs = Cmd tr ++ matched_files tr changed) as H1.
  { intros tr cmdArgs failed Hin. apply list_elem_of_In in Hin.
    destruct (Hev _ Hin) as (Hr & Hm & Hd & Ha). auto. }
  split; [|split; [exact H1|split]].
  - intros tr ev Hin. apply list_elem_of_In in Hin.
    destruct (Hev _ Hin) as (Hr & Hm & _). auto.
  - intros Hdry. unfold spawns.
    destruct (List.filter _ (fst res)) as [|[tr ev] rest] eqn:Hf; [reflexivity|].
    assert (In (tr, ev) (List.filter (fun te => is_spawn (snd te)) (fst res))) as Hin
      by (rewrite Hf; left; reflexivity).
    apply List.filter_In in Hin as [Hin Hsp]. destruct ev; try discriminate.
    destruct (H1 _ _ _ Hin) as [Hd _]. congruence.
  - intros Hv Hknown. subst res.
    rewrite (runPreflight_validated BashQuote cmdRun changed verbose dryRun cfg triggerNames
               Hv Hknown).
    cbn [fst snd]. split.
    + intros e. destruct (any_failed _); discriminate.
    + intros ->.
      destruct (would_runs_expected_trace BashQuote cmdRun changed verbose
                  (to_run cfg triggerNames changed) 0) as (-> & _ & ->).
      auto.
Qed.

(** C9.  The commands of a run (spawned or, in a dry run, printed) follow
    the order in which the triggers are declared in the configuration,
    and the events of the run do not depend on the order in which the
    names were given; with known names the whole result does not.  For a
    validated configuration the commands are those of the requested
    triggers with a matched file, filtered from the declared list. *)
Theorem C9_declaration_order
  (BashQuote : list string -> list string) (cmdRun : nat -> list string -> bool)
  (changed : list string) (dryRun verbose : bool)
  (cfg : PreflightConfig) (triggerNames triggerNames' : list string) :
  sublist (map fst (actions (fst (runPreflight BashQuote cmdRun changed dryRun verbose
                                               cfg triggerNames))))
          (Triggers cfg) /\
  (triggerNames ≡ₚ triggerNames' ->
   fst (runPreflight BashQuote cmdRun changed dryRun verbose cfg triggerNames) =
   fst (runPreflight BashQuote cmdRun changed dryRun verbose cfg triggerNames')) /\
  (triggerNames ≡ₚ triggerNames' ->
   Forall (fun n => n ∈ config_names cfg) triggerNames ->
   runPreflight BashQuote cmdRun changed dryRun verbose cfg triggerNames =
   runPreflight BashQuote cmdRun changed dryRun verbose cfg triggerNames') /\
  (validateConfig cfg = None ->
   Forall (fun n => n ∈ config_names cfg) triggerNames ->
   map fst (actions (fst (runPreflight BashQuote cmdRun changed dryRun verbose
                                       cfg triggerNames))) =
   to_run cfg triggerNames changed).
Proof.
  split; [apply runPreflight_events|].

  assert (triggerNames ≡ₚ triggerNames' ->
          match selectTriggers cfg triggerNames, selectTriggers cfg triggerNames' with
          | inr en, inr en' => en = en'
          | inl _, inl _ => True
          | _, _ => False
          end) as Hsel.
  { intros Hperm. unfold selectTriggers.
    assert (Nat.eqb (length triggerNames') 0 = Nat.eqb (length triggerNames) 0) as ->
      by (rewrite (Permutation_length Hperm); reflexivity).
    set (names := if Nat.eqb (length triggerNames) 0 then allTriggerNames cfg else triggerNames).
    set (names' := if Nat.eqb (length triggerNames) 0 then allTriggerNames cfg else triggerNames').
    assert (names ≡ₚ names') as Hp.
    { unfold names, names'. destruct (Nat.eqb _ 0); [reflexivity|exact Hperm]. }
    pose proof (enable_triggers_spec (cfgTriggerMap cfg) names ∅) as H1.
    pose proof (enable_triggers_spec (cfgTriggerMap cfg) names' ∅) as H2.
    destruct (enable_triggers _ names ∅) as [e|en], (enable_triggers _ names' ∅) as [e'|en'];
      [exact I| | |].
    - destruct H1 as (pre & n & post & Heq & _ & Hn & _), H2 as [Hall _].
      rewrite <- Hp, Heq in Hall. apply Forall_app in Hall as [_ Hall].
      inversion Hall as [|? ? [v Hv] _]; congruence.
    - destruct H2 as (pre & n & post & Heq & _ & Hn & _), H1 as [Hall _].
      rewrite Hp, Heq in Hall. apply Forall_app in Hall as [_ Hall].
      inversion Hall as [|? ? [v Hv] _]; congruence.
    - destruct H1 as [_ H1], H2 as [_ H2]. apply map_eq. intros k.
      rewrite H1, H2. rewrite (bool_decide_ext (k ∈ names) (k ∈ names')); [reflexivity|].
      rewrite Hp. reflexivity. }
  split; [|split].
  - intros Hperm. specialize (Hsel Hperm). unfold runPreflight.
    destruct (selectTriggers cfg triggerNames) as [e|en],
             (selectTriggers cfg triggerNames') as [e'|en']; try contradiction;
      [reflexivity|]. subst en'. reflexivity.
  - intros Hperm Hknown. specialize (Hsel Hperm). unfold runPreflight.
    destruct (selectTriggers_known cfg triggerNames Hknown) as (en & Hs & _).
    rewrite Hs in *. destruct (selectTriggers cfg triggerNames') as [e'|en'];
      [contradiction|]. subst en'. reflexivity.
  - intros Hv Hknown.
    rewrite (runPreflight_validated BashQuote cmdRun changed verbose dryRun cfg triggerNames
               Hv Hknown).
    apply actions_expected_trace.
Qed.


(** * The changed-file list *)

(** ** The order of [sort.Strings] *)

Lemma ascii_compare_refl c : Ascii.compare c c = Eq.
Proof. unfold Ascii.compare. apply N.compare_refl. Qed.

Lemma ascii_compare_lt_trans x y z :
  Ascii.compare x y = Lt -> Ascii.compare y z = Lt -> Ascii.compare x z = Lt.
Proof. unfold Ascii.compare. rewrite !N.compare_lt_iff. apply N.lt_trans. Qed.

Lemma string_compare_refl s : String.compare s s = Eq.
Proof. induction s as [|c s IH]; simpl; [reflexivity|]. rewrite ascii_compare_refl. exact IH. Qed.

Lemma string_compare_not_gt_trans a : forall b c,
  String.compare a b <> Gt -> String.compare b c <> Gt -> String.compare a c <> Gt.
Proof.
  induction a as [|x a IH]; intros [|y b] [|z c]; simpl; try congruence.
  destruct (Ascii.compare x y) eqn:Hxy; [| |congruence];
    destruct (Ascii.compare y z) eqn:Hyz; try congruence.
  - apply Ascii.compare_eq_iff in Hxy, Hyz. subst. rewrite ascii_compare_refl. apply IH.
  - apply Ascii.compare_eq_iff in Hxy. subst. rewrite Hyz. congruence.
  - apply Ascii.compare_eq_iff in Hyz. subst. rewrite Hxy. congruence.
  - rewrite (ascii_compare_lt_trans _ _ _ Hxy Hyz). congruence.
Qed.

Lemma string_le_compare a b : gosort.string_le a b <-> String.compare a b <> Gt.
Proof.
  unfold gosort.string_le, String.leb. destruct (String.compare a b); split; congruence.
Qed.

Lemma string_le_trans : Transitive gosort.string_le.
Proof.
  intros a b c. rewrite !string_le_compare. apply string_compare_not_gt_trans.
Qed.

Lemma string_le_total : Total gosort.string_le.
Proof. intros a b. apply String.leb_total. Qed.

Lemma string_le_antisymm : AntiSymm eq gosort.string_le.
Proof. intros a b. apply String.leb_antisym. Qed.

#[local] Existing Instance string_le_trans.
#[local] Existing Instance string_le_total.
#[local] Existing Instance string_le_antisymm.

Lemma string_lt_le_ne a b : gosort.string_lt a b <-> gosort.string_le a b /\ a <> b.
Proof.
  unfold gosort.string_lt, gosort.string_le, String.ltb, String.leb.
  destruct (String.compare a b) eqn:Hc.
  - apply String.compare_eq_iff in Hc. split; [discriminate|]. intros [_ Hne]. contradiction.
  - split; [|reflexivity]. intros _. split; [reflexivity|].
    intros ->. rewrite string_compare_refl in Hc. discriminate.
  - split; [discriminate|]. intros [? _]. discriminate.
Qed.

Lemma Strings_sorted l : StronglySorted gosort.string_le (gosort.Strings l).
Proof. apply StronglySorted_merge_sort; apply _. Qed.

Lemma Strings_Permutation l : gosort.Strings l ≡ₚ l.
Proof. apply merge_sort_Permutation. Qed.

(** The sorted list only depends on the elements, not on their order. *)
Lemma Strings_order_irrelevant l1 l2 : l1 ≡ₚ l2 -> gosort.Strings l1 = gosort.Strings l2.
Proof.
  intros Hp. apply (StronglySorted_unique gosort.string_le); try apply Strings_sorted.
  rewrite !Strings_Permutation. exact Hp.
Qed.

Lemma StronglySorted_strict (l : list string) :
  StronglySorted gosort.string_le l -> NoDup l -> StronglySorted gosort.string_lt l.
Proof.
  induction 1 as [|x l Hs IH Hall]; intros Hnd; [constructor|].
  apply NoDup_cons in Hnd as [Hx Hnd]. constructor; [apply IH, Hnd|].
  rewrite Forall_forall in *. intros y Hy. apply string_lt_le_ne. split; [apply Hall, Hy|].
  intros ->. contradiction.
Qed.

(** ** The set of changed files *)

Lemma add_files_lookup fnames : forall (set : gmap string bool) (k : string),
  is_Some (add_files set fnames !! k) <-> is_Some (set !! k) \/ k ∈ fnames.
Proof.
  unfold add_files. induction fnames as [|f rest IH]; intros set k; simpl.
  - rewrite elem_of_nil. tauto.
  - rewrite IH, elem_of_cons. destruct (decide (f = k)) as [->|Hne].
    + rewrite lookup_insert_eq. split; [auto|]. intros _. left. eauto.
    + rewrite lookup_insert_ne by exact Hne. split; [tauto|].
      intros [?|[?|?]]; auto. congruence.
Qed.

Lemma changedFileSet_lookup committed unstaged staged (k : string) :
  is_Some (changedFileSet committed unstaged staged !! k) <->
  k ∈ committed \/ k ∈ unstaged \/ k ∈ staged.
Proof.
  unfold changedFileSet. cbn [foldl]. rewrite !add_files_lookup, lookup_empty.
  split; [|tauto]. intros [[[[? ?]|?]|?]|?]; auto. discriminate.
Qed.

Lemma stringSet2Slice_keys (ss : gmap string bool) : stringSet2Slice ss = (map_to_list ss).*1.
Proof.
  unfold stringSet2Slice. destruct (Nat.eqb_spec (size ss) 0) as [Hz|_]; [|reflexivity].
  apply map_size_empty_iff in Hz. subst ss. rewrite map_to_list_empty. reflexivity.
Qed.

Lemma stringSet2Slice_NoDup (ss : gmap string bool) : NoDup (stringSet2Slice ss).
Proof. rewrite stringSet2Slice_keys. apply NoDup_fst_map_to_list. Qed.

Lemma stringSet2Slice_elem (ss : gmap string bool) (k : string) :
  k ∈ stringSet2Slice ss <-> is_Some (ss !! k).
Proof.
  rewrite stringSet2Slice_keys, list_elem_of_fmap. split.
  - intros ([k' v] & -> & Hin). apply elem_of_map_to_list in Hin. eauto.
  - intros [v Hv]. exists (k, v). split; [reflexivity|]. apply elem_of_map_to_list, Hv.
Qed.

(** C4 (amended).  The changed-file list is sorted in both modes.  With a
    commit hash it is the list reported for that commit, sorted: the same
    paths with the same multiplicities.  Without one it holds exactly the
    paths reported by the merge-base diff, the unstaged or the staged
    changes, each once, in strictly increasing order, whatever the order
    in which the set is iterated. *)
Theorem C4_changedFiles_sorted
  (commitHash : string) (commitFiles committedFiles unstagedFiles stagedFiles : list string) :
  let result := changedFiles commitHash commitFiles committedFiles unstagedFiles stagedFiles in
  StronglySorted gosort.string_le result /\
  (is_empty commitHash = false -> result ≡ₚ commitFiles) /\
  (is_empty commitHash = true ->
   StronglySorted gosort.string_lt result /\ NoDup result /\
   (forall f : string,
      f ∈ result <-> f ∈ committedFiles \/ f ∈ unstagedFiles \/ f ∈ stagedFiles) /\
   (forall sl,
      stringSet2Slice_order (changedFileSet committedFiles unstagedFiles stagedFiles) sl ->
      gosort.Strings sl = result)).
Proof.
  intros result. subst result. unfold changedFiles, unsortedChangedFiles.
  split; [apply Strings_sorted|]. split.
  - intros ->. cbn [negb]. apply Strings_Permutation.
  - intros ->. cbn [negb].
    set (ss := changedFileSet committedFiles unstagedFiles stagedFiles).
    assert (NoDup (gosort.Strings (stringSet2Slice ss))) as Hnd.
    { rewrite Strings_Permutation. apply stringSet2Slice_NoDup. }
    split; [apply StronglySorted_strict; [apply Strings_sorted|exact Hnd]|].
    split; [exact Hnd|]. split.
    + intros f. rewrite Strings_Permutation, stringSet2Slice_elem.
      apply changedFileSet_lookup.
    + intros sl Hsl. apply Strings_order_irrelevant, Hsl.
Qed.

Lemma C4_changedFiles_sorted_witness :
  changedFiles EmptyString [] ["b.go"; "a.go"] ["a.go"; "docs/README.md"] ["b.go"] =
  ["a.go"; "b.go"; "docs/README.md"] /\
  gosort.Strings ["docs/README.md"; "b.go"; "a.go"] =
  changedFiles EmptyString [] ["b.go"; "a.go"] ["a.go"; "docs/README.md"] ["b.go"].
Proof.
  split; [vm_compute; reflexivity|].
  apply (C4_changedFiles_sorted EmptyString [] ["b.go"; "a.go"] ["a.go"; "docs/README.md"] ["b.go"]).
  - reflexivity.
  - unfold stringSet2Slice_order. vm_compute.
    symmetry. exact (Permutation_rev ["a.go"; "b.go"; "docs/README.md"]).
Defined.

(** C4, as stated, fails with a commit hash: a path that the commit's
    change source reports twice stays twice in the list. *)
Lemma C4_commit_mode_keeps_duplicates :
  changedFiles "c0ffee" ["b.go"; "a.go"; "b.go"] [] [] [] = ["a.go"; "b.go"; "b.go"] /\
  ~ NoDup (changedFiles "c0ffee" ["b.go"; "a.go"; "b.go"] [] [] []).
Proof.
  assert (changedFiles "c0ffee" ["b.go"; "a.go"; "b.go"] [] [] [] = ["a.go"; "b.go"; "b.go"])
    as H by (vm_compute; reflexivity).
  split; [exact H|]. rewrite H. intros Hnd.
  apply NoDup_cons in Hnd as [_ Hnd]. apply NoDup_cons in Hnd as [Hin _].
  apply Hin. constructor.
Qed.


(** Validation excludes malformed patterns: a validated trigger is in
    the first case of C1. *)
Lemma validateTrigger_no_glob_error tr :
  validateTrigger tr = None -> no_glob_error tr.
Proof.
  intros Hv pat name Hin. apply validateTrigger_patterns in Hv as (_ & Hi & He).
  apply path_facts.Match_error_free. change (pattern_ok pat).
  rewrite Forall_forall in Hi, He.
  apply elem_of_app in Hin as [Hin|Hin]; [apply Hi, Hin|apply He, Hin].
Qed.

Lemma C1_match_first_include_then_excludes_witness :
  no_glob_error lint_trigger /\
  match_ lint_trigger "cmd/go/main.go" = (true, None) /\
  match_ lint_trigger "main_test.go" = (false, None).
Proof.
  assert (no_glob_error lint_trigger) as Hok.
  { apply validateTrigger_no_glob_error. vm_compute. reflexivity. }
  split; [exact Hok|]. split.
  - destruct (C1_match_first_include_then_excludes lint_trigger "cmd/go/main.go") as [H _].
    rewrite (H Hok). vm_compute. reflexivity.
  - destruct (C1_match_first_include_then_excludes lint_trigger "main_test.go") as [H _].
    rewrite (H Hok). vm_compute. reflexivity.
Defined.

Lemma C5_failure_does_not_stop_later_triggers_witness :
  validateConfig sample_config = None /\
  map fst (spawns (fst (runPreflight sample_quote first_fails sample_changed false false
                                     sample_config []))) = [lint_trigger; docs_trigger] /\
  snd (runPreflight sample_quote first_fails sample_changed false false sample_config []) =
  ExitFailure.
Proof.
  assert (validateConfig sample_config = None) as Hv by (vm_compute; reflexivity).
  assert (Forall (fun n => n ∈ config_names sample_config) []) as Hk by constructor.
  destruct (C5_failure_does_not_stop_later_triggers sample_quote first_fails sample_changed
              false sample_config [] Hv Hk) as (_ & Hrun & Hfail & _).
  split; [exact Hv|]. split.
  - rewrite Hrun. vm_compute. reflexivity.
  - apply Hfail. exists lint_trigger, ["golint"; "main.go"]. vm_compute. auto.
Defined.

Lemma C8_spawn_only_when_matched_and_live_witness :
  validateConfig sample_config = None /\
  spawns (fst (runPreflight sample_quote first_fails sample_changed true false
                            sample_config ["docs"])) = [] /\
  would_runs (fst (runPreflight sample_quote first_fails sample_changed true false
                                sample_config ["docs"])) =
  [(docs_trigger, EvWouldRun "docs" "'mdfmt' '-w' 'README.md'")].
Proof.
  assert (validateConfig sample_config = None) as Hv by (vm_compute; reflexivity).
  assert (Forall (fun n => n ∈ config_names sample_config) ["docs"]) as Hk.
  { constructor; [|constructor]. apply list_elem_of_further, list_elem_of_here. }
  destruct (C8_spawn_only_when_matched_and_live sample_quote first_fails sample_changed
              true false sample_config ["docs"]) as (_ & _ & Hdry & Hlines).
  split; [exact Hv|]. split; [exact (Hdry eq_refl)|].
  destruct (Hlines Hv Hk) as [_ Hwould].
  destruct (Hwould eq_refl) as [-> _]. vm_compute. reflexivity.
Defined.


(** * Further properties of the specification *)

(** A trigger with an empty [Includes] list matches no file. *)
Theorem empty_includes_match_nothing
  (name : string) (cmd : list string) (ty : string) (excludes : list string) (fname : string) :
  match_ {| Name := name; Cmd := cmd; InputType := ty;
            Includes := []; Excludes := excludes |} fname = (false, None).
Proof. reflexivity. Qed.

(** Includes *.go with excludes *_test.go: of a.go, a_test.go and
    sub/b.go the matched files are a.go and sub/b.go. *)
Theorem go_files_without_tests :
  matched_files (trigger_of ["*.go"] ["*_test.go"]) ["a.go"; "a_test.go"; "sub/b.go"] =
  ["a.go"; "sub/b.go"].
Proof. vm_compute. reflexivity. Qed.

Lemma validateConfig_loop_NoDup triggers : forall nameMap,
  validateConfig_loop triggers nameMap = None ->
  NoDup (Name <$> triggers) /\
  forall t, t ∈ triggers -> map_get nameMap (Name t) = false.
Proof.
  induction triggers as [|t rest IH]; intros nameMap; cbn [validateConfig_loop fmap list_fmap].
  { intros _. split; [constructor|]. intros t Ht. inversion Ht. }
  destruct (map_get nameMap (Name t)) eqn:Hget; [discriminate|].
  destruct (validateTrigger t); [discriminate|].
  intros H. apply IH in H as [Hnd Hfresh]. split.
  - constructor; [|exact Hnd]. intros Hin. apply list_elem_of_fmap in Hin as (t' & Heq & Hin).
    specialize (Hfresh t' Hin). unfold map_get in Hfresh.
    rewrite <- Heq, lookup_insert_eq in Hfresh. discriminate.
  - intros t' Hin. apply elem_of_cons in Hin as [->|Hin]; [exact Hget|].
    specialize (Hfresh t' Hin). unfold map_get in *.
    destruct (decide (Name t = Name t')) as [Heq|Hne].
    + rewrite Heq, lookup_insert_eq in Hfresh. discriminate.
    + rewrite lookup_insert_ne in Hfresh by exact Hne. exact Hfresh.
Qed.

(** The trigger names of a configuration that validation accepts are
    pairwise different. *)
Theorem validated_names_unique (cfg : PreflightConfig) :
  validateConfig cfg = None -> NoDup (config_names cfg).
Proof. intros H. apply validateConfig_loop_NoDup in H as [H _]. exact H. Qed.

Lemma validated_names_unique_witness :
  validateConfig sample_config = None /\ NoDup (config_names sample_config).
Proof.
  assert (validateConfig sample_config = None) as Hv by (vm_compute; reflexivity).
  split; [exact Hv|]. exact (validated_names_unique sample_config Hv).
Defined.

(** The order of the checks on examples: a second trigger named lint with
    an unknown input type and a malformed include is reported as a
    duplicate; an unknown input type is reported before a malformed
    include, and a malformed include before a malformed exclude. *)
Example validateConfig_order_examples :
  validateConfig {| Triggers := [lint_trigger;
                                 {| Name := "lint"; Cmd := []; InputType := "xyz";
                                    Includes := ["["]; Excludes := [] |}] |} =
  Some (ErrDuplicateName "lint") /\
  validateConfig {| Triggers := [{| Name := "a"; Cmd := []; InputType := "xyz";
                                    Includes := ["["]; Excludes := ["[a-"] |}] |} =
  Some (ErrInputType "xyz" "a") /\
  validateConfig {| Triggers := [{| Name := "a"; Cmd := []; InputType := "args";
                                    Includes := ["*.go"; "["]; Excludes := ["[a-"] |}] |} =
  Some (ErrIncludePattern "[" "a" ErrBadPattern) /\
  validateConfig {| Triggers := [{| Name := "a b"; Cmd := []; InputType := "xyz";
                                    Includes := []; Excludes := [] |}] |} =
  Some (ErrWhitespaceName "a b").
Proof. repeat split; vm_compute; reflexivity. Qed.

(** * The rest of the program *)

(** ** [stringSet2Slice] *)

(** [stringSet2Slice] returns every key of the map exactly once, whatever
    boolean the key is mapped to, and nothing else; it returns nil
    exactly for the empty map. *)
Theorem stringSet2Slice_keys_once (ss : gmap string bool) :
  NoDup (stringSet2Slice ss) /\
  (forall k : string, k ∈ stringSet2Slice ss <-> is_Some (ss !! k)) /\
  length (stringSet2Slice ss) = size ss /\
  (stringSet2Slice ss = [] <-> ss = ∅).
Proof.
  split; [apply stringSet2Slice_NoDup|]. split; [apply stringSet2Slice_elem|].
  assert (length (stringSet2Slice ss) = size ss) as Hlen.
  { rewrite stringSet2Slice_keys, length_fmap. apply length_map_to_list. }
  split; [exact Hlen|]. rewrite <- map_size_empty_iff, <- Hlen.
  destruct (stringSet2Slice ss); simpl; split; congruence.
Qed.

(** ** [readConfig] *)

Lemma ContainsAny_false s chars :
  gostrings.ContainsAny s chars = false <->
  forall c, has_byte c s = true -> has_byte c chars = false.
Proof.
  induction s as [|d s IH]; cbn [gostrings.ContainsAny has_byte].
  { split; [discriminate|reflexivity]. }
  rewrite orb_false_iff, IH. split.
  - intros [Hd Hs] c Hc. apply orb_true_iff in Hc as [Hc|Hc]; [|apply Hs, Hc].
    apply Ascii.eqb_eq in Hc. subst. exact Hd.
  - intros H. split.
    + apply H. unfold is_byte. rewrite Ascii.eqb_refl. reflexivity.
    + intros c Hc. apply H. rewrite Hc. apply orb_true_r.
Qed.

Lemma validateTrigger_name tr :
  validateTrigger tr = None ->
  Name tr <> EmptyString /\
  forall c, has_byte c (Name tr) = true -> has_byte c whitespace_chars = false.
Proof.
  unfold validateTrigger.
  destruct (is_empty (Name tr)) eqn:He; [discriminate|].
  destruct (gostrings.ContainsAny (Name tr) whitespace_chars) eqn:Hw; [discriminate|].
  intros _. split.
  - intros Heq. rewrite Heq in He. discriminate.
  - apply ContainsAny_false, Hw.
Qed.

Section ProgramFacts.

Variable E : Type.
Variable File : Type.
Variable os_Open : string -> E + File.
Variable Decode : File -> E + PreflightConfig.

Lemma readConfig_inr fname cfg :
  readConfig E File os_Open Decode fname = inr cfg -> validateConfig cfg = None.
Proof.
  unfold readConfig. destruct (os_Open fname) as [e|f]; [discriminate|].
  destruct (Decode f) as [e|cfg']; [discriminate|].
  destruct (validateConfig cfg') eqn:Hv; [discriminate|]. intros [= <-]. exact Hv.
Qed.

(** Every configuration that [readConfig] returns has pairwise different
    trigger names, none of them empty or containing a space, tab,
    carriage return or line feed; every trigger has the input type args,
    and [match] never returns an error on it. *)
Theorem readConfig_returns_well_formed (fname : string) (cfg : PreflightConfig) :
  readConfig E File os_Open Decode fname = inr cfg ->
  NoDup (config_names cfg) /\
  Forall (fun tr =>
            Name tr <> EmptyString /\
            (forall c, has_byte c (Name tr) = true -> has_byte c whitespace_chars = false) /\
            InputType tr = InputTypeArgs /\
            forall f, snd (match_ tr f) = None) (Triggers cfg).
Proof.
  intros Hr. apply readConfig_inr in Hr.
  split; [apply validated_names_unique, Hr|].
  apply validateConfig_loop_triggers in Hr.
  eapply Forall_impl; [exact Hr|]. intros tr Htr.
  destruct (validateTrigger_name tr Htr) as [Hn Hw].
  destruct (validateTrigger_patterns tr Htr) as (Hty & _ & _).
  repeat split; auto. intros f. apply validateTrigger_match_no_error, Htr.
Qed.

(** ** [runValidate] *)

Lemma runValidate_all_ok args :
  Forall (config_ok E File os_Open Decode) args ->
  runValidate E File os_Open Decode args = (ok_lines E args, None).
Proof.
  induction 1 as [|f rest [cfg Hf] _ IH]; cbn [runValidate ok_lines flat_map]; [reflexivity|].
  rewrite Hf, IH. reflexivity.
Qed.

(** [runValidate] ends without error exactly when every file is read and
    validated; otherwise it ends at the first file that is not, with the
    error of that file, after printing the names of the files up to it:
    the files after it have no effect. *)
Theorem runValidate_stops_at_first_invalid (args : list string) :
  (snd (runValidate E File os_Open Decode args) = None <-> Forall (config_ok E File os_Open Decode) args) /\
  (forall pre fname post err,
     args = pre ++ fname :: post ->
     Forall (config_ok E File os_Open Decode) pre ->
     readConfig E File os_Open Decode fname = inl err ->
     runValidate E File os_Open Decode args =
     (ok_lines E pre ++ [PrintName fname; PrintErr (Some err)], Some err)).
Proof.
  split.
  - split; [|intros H; rewrite runValidate_all_ok by exact H; reflexivity].
    induction args as [|f rest IH]; cbn [runValidate]; [constructor|].
    destruct (readConfig E File os_Open Decode f) as [e|cfg] eqn:Hf; [discriminate|].
    destruct (runValidate E File os_Open Decode rest) as [evs res]. cbn [snd] in *.
    intros Hres. constructor; [exists cfg; exact Hf|apply IH, Hres].
  - intros pre fname post err -> Hpre Hf.
    induction Hpre as [|f pre [cfg Hc] _ IH]; cbn [app runValidate ok_lines flat_map].
    + rewrite Hf. reflexivity.
    + rewrite Hc, IH. reflexivity.
Qed.

(** ** [Predict] *)

Lemma predict_names_filter triggers lastCompleted : forall names,
  predict_names triggers lastCompleted names =
  names ++ List.filter (fun n => negb (String.eqb lastCompleted n)) (Name <$> triggers).
Proof.
  induction triggers as [|t rest IH]; intros names;
    cbn [predict_names fmap list_fmap List.filter].
  { rewrite app_nil_r. reflexivity. }
  rewrite IH. destruct (negb (String.eqb lastCompleted (Name t))); [|reflexivity].
  rewrite <- app_assoc. reflexivity.
Qed.

(** [Predict] returns the names of the configured triggers other than the
    word last completed, in strictly increasing order; it returns nothing
    when the configuration cannot be read or is not valid. *)
Theorem Predict_sorted_names (configPath lastCompleted : string) :
  StronglySorted gosort.string_lt (Predict E File os_Open Decode configPath lastCompleted) /\
  (forall n : string,
     n ∈ Predict E File os_Open Decode configPath lastCompleted <->
     exists cfg, readConfig E File os_Open Decode configPath = inr cfg /\
                 n ∈ config_names cfg /\ n <> lastCompleted).
Proof.
  unfold Predict.
  destruct (readConfig E File os_Open Decode configPath) as [e|cfg] eqn:Hr.
  { split; [constructor|]. intros n. split; [intros H; inversion H|].
    intros (cfg & Hc & _). discriminate. }
  rewrite predict_names_filter. cbn [app].
  set (names := List.filter _ _).
  assert (forall n : string, n ∈ names <-> n ∈ config_names cfg /\ n <> lastCompleted) as Hin.
  { intros n. unfold names. rewrite list_elem_of_In, List.filter_In, <- list_elem_of_In.
    unfold config_names. rewrite negb_true_iff, String.eqb_neq. split; intros [? ?]; auto. }
  assert (NoDup names) as Hnd.
  { unfold names. apply NoDup_ListNoDup, List.NoDup_filter, NoDup_ListNoDup.
    apply validated_names_unique. eapply readConfig_inr, Hr. }
  split.
  - apply StronglySorted_strict; [apply Strings_sorted|]. rewrite Strings_Permutation. exact Hnd.
  - intros n. rewrite Strings_Permutation, Hin. split.
    + intros [? ?]. exists cfg. auto.
    + intros (cfg' & [= <-] & ? & ?). auto.
Qed.

End ProgramFacts.

(** ** The changed directories *)

Lemma changedDirSet_lookup (isDir : string -> bool) (files : list string) :
  forall (set : gmap string bool) (d : string),
  is_Some (foldl (fun set f =>
                    let dirName := path_dir.Dir f in
                    if isDir dirName then <[dirName := true]> set else set) set files !! d) <->
  is_Some (set !! d) \/ exists f, f ∈ files /\ d = path_dir.Dir f /\ isDir d = true.
Proof.
  induction files as [|f rest IH]; intros set d; cbn [foldl].
  { split; [auto|]. intros [H|(f & Hf & _)]; [exact H|inversion Hf]. }
  rewrite IH. cbv zeta. split.
  - intros [H|(g & Hg & Hd & Hdir)].
    + destruct (isDir (path_dir.Dir f)) eqn:Hf; [|auto].
      destruct (decide (path_dir.Dir f = d)) as [<-|Hne].
      * right. exists f. split; [constructor|auto].
      * rewrite lookup_insert_ne in H by exact Hne. auto.
    + right. exists g. split; [constructor; exact Hg|auto].
  - intros [H|(g & Hg & Hd & Hdir)].
    + left. destruct (isDir (path_dir.Dir f)); [|exact H].
      destruct (decide (path_dir.Dir f = d)) as [<-|Hne].
      * rewrite lookup_insert_eq. eauto.
      * rewrite lookup_insert_ne by exact Hne. exact H.
    + apply elem_of_cons in Hg as [->|Hg].
      * left. subst d. rewrite Hdir, lookup_insert_eq. eauto.
      * right. exists g. auto.
Qed.

(** The list of changed directories is in strictly increasing order and
    holds exactly the parent directories of the changed files that exist
    as directories, however the set is iterated. *)
Theorem changedDirs_sorted_existing (isDir : string -> bool) (changedFiles : list string) :
  StronglySorted gosort.string_lt (changedDirs isDir changedFiles) /\
  (forall d : string,
     d ∈ changedDirs isDir changedFiles <->
     exists f, f ∈ changedFiles /\ d = path_dir.Dir f /\ isDir d = true) /\
  (forall sl, stringSet2Slice_order (changedDirSet isDir changedFiles) sl ->
     gosort.Strings sl = changedDirs isDir changedFiles).
Proof.
  unfold changedDirs. split; [|split].
  - apply StronglySorted_strict; [apply Strings_sorted|].
    rewrite Strings_Permutation. apply stringSet2Slice_NoDup.
  - intros d. rewrite Strings_Permutation, stringSet2Slice_elem.
    unfold changedDirSet. rewrite changedDirSet_lookup, lookup_empty.
    split; [|auto]. intros [[? ?]|?]; [discriminate|assumption].
  - intros sl Hsl. apply Strings_order_irrelevant, Hsl.
Qed.

(** ** The commands of a run *)

Lemma matched_files_sublist tr changed : sublist (matched_files tr changed) changed.
Proof.
  unfold matched_files. induction changed as [|f rest IH]; cbn [List.filter]; [constructor|].
  destruct (fst (match_ tr f)); [apply sublist_skip|apply sublist_cons]; exact IH.
Qed.

Lemma StronglySorted_sublist (R : relation string) (l1 l2 : list string) :
  sublist l1 l2 -> StronglySorted R l2 -> StronglySorted R l1.
Proof.
  induction 1 as [|x l1 l2 Hs IH|x l1 l2 Hs IH]; intros Hsort; [constructor| |].
  - apply StronglySorted_inv in Hsort as [Hs2 Hall]. constructor; [apply IH, Hs2|].
    rewrite Forall_forall in *. intros y Hy. apply Hall. eapply elem_of_sublist; eauto.
  - apply StronglySorted_inv in Hsort as [Hs2 _]. apply IH, Hs2.
Qed.

Lemma spawn_arguments
  (BashQuote : list string -> list string) (cmdRun : nat -> list string -> bool)
  (changed : list string) (dryRun verbose : bool)
  (cfg : PreflightConfig) (triggerNames : list string)
  (tr : TriggerConfig) (cmdArgs : list string) (failed : bool) :
  In (tr, EvSpawn cmdArgs failed)
     (fst (runPreflight BashQuote cmdRun changed dryRun verbose cfg triggerNames)) ->
  cmdArgs = Cmd tr ++ matched_files tr changed /\
  matched_files tr changed <> [] /\
  (forall f, f ∈ matched_files tr changed <-> f ∈ changed /\ match_ tr f = (true, None)).
Proof.
  intros Hin.
  pose proof (runPreflight_events BashQuote cmdRun changed verbose dryRun cfg triggerNames)
    as [_ Hev].
  rewrite Forall_forall in Hev. apply list_elem_of_In in Hin.
  destruct (Hev _ Hin) as (_ & Hne & _ & Hargs). cbn [fst snd] in *.
  unfold cmdArgs_of in Hargs. split; [exact Hargs|]. split; [exact Hne|].
  intros f. unfold matched_files.
  rewrite list_elem_of_In, List.filter_In, <- list_elem_of_In.
  split; intros [Hf Hm]; (split; [exact Hf|]).
  - destruct (match_ tr f) as [b [e|]] eqn:Hmf; cbn [fst] in Hm; subst b; [|reflexivity].
    apply match_includes_no_error_true in Hmf. discriminate.
  - rewrite Hm. reflexivity.
Qed.



(** ** Runs without changes, repeated names *)

Lemma selectTriggers_inl cfg names e :
  selectTriggers cfg names = inl e ->
  exists n, e = ErrNoSuchTrigger n /\ n ∈ names /\ n ∉ config_names cfg.
Proof.
  unfold selectTriggers. intros Hs.
  pose proof (enable_triggers_spec (cfgTriggerMap cfg)
                (if Nat.eqb (length names) 0 then allTriggerNames cfg else names) ∅) as Hspec.
  rewrite Hs in Hspec. destruct Hspec as (pre & n & post & Heq & _ & Hn & ->).
  assert (n ∉ config_names cfg) as Hunk.
  { intros Hk%cfgTriggerMap_known. rewrite Hn in Hk. destruct Hk; discriminate. }
  exists n. split; [reflexivity|]. split; [|exact Hunk].
  destruct names as [|x rest]; cbn [length Nat.eqb] in Heq.
  - exfalso. apply Hunk. rewrite <- allTriggerNames_names, Heq.
    apply elem_of_app. right. constructor.
  - rewrite Heq. apply elem_of_app. right. constructor.
Qed.



(** The run depends on the requested names as a set: two non-empty lists
    of configured names with the same members give the same run, so
    repeating a name or changing the order changes nothing. *)
Theorem requested_names_as_set
  (BashQuote : list string -> list string) (cmdRun : nat -> list string -> bool)
  (changed : list string) (dryRun verbose : bool)
  (cfg : PreflightConfig) (triggerNames triggerNames' : list string) :
  triggerNames <> [] -> triggerNames' <> [] ->
  (forall n : string, n ∈ triggerNames <-> n ∈ triggerNames') ->
  Forall (fun n => n ∈ config_names cfg) triggerNames ->
  runPreflight BashQuote cmdRun changed dryRun verbose cfg triggerNames =
  runPreflight BashQuote cmdRun changed dryRun verbose cfg triggerNames'.
Proof.
  intros Hne Hne' Hsame Hknown.
  assert (Forall (fun n => n ∈ config_names cfg) triggerNames') as Hknown'.
  { rewrite Forall_forall in *. intros n Hn. apply Hknown, Hsame, Hn. }
  unfold runPreflight.
  destruct (selectTriggers_known cfg _ Hknown) as (en & Hs & _).
  destruct (selectTriggers_known cfg _ Hknown') as (en' & Hs' & _).
  rewrite Hs, Hs'. replace en' with en; [reflexivity|].
  unfold selectTriggers in Hs, Hs'.
  destruct triggerNames as [|x l]; [congruence|].
  destruct triggerNames' as [|x' l']; [congruence|]. cbn [length Nat.eqb] in Hs, Hs'.
  pose proof (enable_triggers_spec (cfgTriggerMap cfg) (x :: l) ∅) as H1.
  pose proof (enable_triggers_spec (cfgTriggerMap cfg) (x' :: l') ∅) as H2.
  rewrite Hs in H1. rewrite Hs' in H2. destruct H1 as [_ H1], H2 as [_ H2].
  apply map_eq. intros k. rewrite H1, H2.
  rewrite (bool_decide_ext (k ∈ x :: l) (k ∈ x' :: l')); [reflexivity|apply Hsame].
Qed.

Lemma requested_names_as_set_witness :
  runPreflight sample_quote first_fails sample_changed false true sample_config ["docs"] =
  runPreflight sample_quote first_fails sample_changed false true sample_config
               ["docs"; "docs"].
Proof.
  apply requested_names_as_set; [discriminate|discriminate| |].
  - intros n. rewrite !elem_of_cons. tauto.
  - constructor; [|constructor]. apply list_elem_of_further, list_elem_of_here.
Defined.

Lemma sublist_map {A B} (f : A -> B) (l1 l2 : list A) :
  sublist l1 l2 -> sublist (map f l1) (map f l2).
Proof.
  induction 1; cbn [map]; [constructor|apply sublist_skip|apply sublist_cons]; assumption.
Qed.

Lemma map_fmap {A B} (f : A -> B) (l : list A) : map f l = f <$> l.
Proof. induction l as [|x l IH]; [reflexivity|]. cbn. rewrite IH. reflexivity. Qed.

(** In a run of a validated configuration no trigger has its command
    spawned or printed more than once. *)
Theorem each_trigger_at_most_once
  (BashQuote : list string -> list string) (cmdRun : nat -> list string -> bool)
  (changed : list string) (dryRun verbose : bool)
  (cfg : PreflightConfig) (triggerNames : list string) :
  validateConfig cfg = None ->
  NoDup (map fst (actions (fst (runPreflight BashQuote cmdRun changed dryRun verbose
                                              cfg triggerNames)))) /\
  NoDup (map Name
             (map fst (actions (fst (runPreflight BashQuote cmdRun changed dryRun verbose
                                                  cfg triggerNames))))).
Proof.
  intros Hv.
  pose proof (runPreflight_events BashQuote cmdRun changed verbose dryRun cfg triggerNames)
    as [Hsub _].
  apply validated_names_unique in Hv. unfold config_names in Hv.
  split.
  - eapply sublist_NoDup; [|exact Hsub]. eapply NoDup_fmap_1, Hv.
  - eapply sublist_NoDup; [exact Hv|].
    rewrite <- (map_fmap Name (Triggers cfg)). apply sublist_map, Hsub.
Qed.

Lemma each_trigger_at_most_once_witness :
  validateConfig sample_config = None /\
  NoDup (map fst (actions (fst (runPreflight sample_quote first_fails sample_changed
                                             false true sample_config ["docs"; "docs"])))).
Proof.
  assert (validateConfig sample_config = None) as Hv by (vm_compute; reflexivity).
  split; [exact Hv|].
  apply (each_trigger_at_most_once sample_quote first_fails sample_changed false true
           sample_config ["docs"; "docs"] Hv).
Defined.

(** ** Base names *)

Lemma LastIndexByteString_None s c :
  LastIndexByteString s c = None <-> has_byte c s = false.
Proof.
  induction s as [|d s IH]; cbn [LastIndexByteString has_byte]; [tauto|].
  destruct (LastIndexByteString s c) as [i|].
  - split; [discriminate|]. intros H. apply orb_false_iff in H as [_ H].
    apply IH in H. discriminate.
  - destruct IH as [IH _]. rewrite (IH eq_refl), orb_false_r.
    destruct (is_byte d c); split; congruence.
Qed.

Lemma LastIndexByteString_Some s c : forall i,
  LastIndexByteString s c = Some i -> has_byte c (drop (S i) s) = false.
Proof.
  induction s as [|d s IH]; intros i; cbn [LastIndexByteString]; [discriminate|].
  destruct (LastIndexByteString s c) as [j|] eqn:Hj.
  - intros [= <-]. apply (IH j eq_refl).
  - destruct (is_byte d c); [|discriminate]. intros [= <-].
    apply LastIndexByteString_None, Hj.
Qed.

Lemma byte_at_not_slash s : forall i,
  has_byte slash s = false -> N.eqb (byte_at i s) (N_of_ascii slash) = false.
Proof.
  unfold byte_at. induction s as [|d s IH]; intros i; cbn [has_byte String.get];
    [reflexivity|].
  intros H. apply orb_false_iff in H as [Hd Hs].
  destruct i as [|i]; [|apply IH, Hs].
  apply N.eqb_neq. intros Heq. unfold is_byte in Hd. apply Ascii.eqb_neq in Hd.
  apply Hd. rewrite <- (ascii_N_embedding d), Heq. apply ascii_N_embedding.
Qed.

Lemma strip_trailing_slashes_id fuel s :
  has_byte slash s = false -> path.strip_trailing_slashes fuel s = s.
Proof.
  intros H. destruct fuel as [|fuel]; cbn [path.strip_trailing_slashes]; [reflexivity|].
  rewrite byte_at_not_slash by exact H. rewrite andb_false_r. reflexivity.
Qed.

Lemma Base_slash_free s :
  is_empty s = false -> has_byte slash s = false -> path.Base s = s.
Proof.
  intros He Hs. unfold path.Base. rewrite He, strip_trailing_slashes_id by exact Hs.
  apply LastIndexByteString_None in Hs. rewrite Hs, He. reflexivity.
Qed.

(** The base name of a base name is itself. *)
Lemma Base_idempotent p : path.Base (path.Base p) = path.Base p.
Proof.
  unfold path.Base at 2 3. destruct (is_empty p); [reflexivity|].
  set (q := path.strip_trailing_slashes (len p) p).
  destruct (LastIndexByteString q slash) as [i|] eqn:Hi.
  - destruct (is_empty (drop (S i) q)) eqn:He; [reflexivity|].
    apply Base_slash_free; [exact He|]. apply LastIndexByteString_Some, Hi.
  - destruct (is_empty q) eqn:He; [reflexivity|].
    apply Base_slash_free; [exact He|]. apply LastIndexByteString_None, Hi.
Qed.

Lemma match_includes_base includes excludes fname :
  Forall (fun pat => has_byte slash pat = false) includes ->
  match_includes includes excludes fname =
  match_includes includes excludes (path.Base fname).
Proof.
  induction 1 as [|pat rest Hp _ IH]; cbn [match_includes]; [reflexivity|].
  unfold matchName. rewrite Contains_slash, Hp. cbn [negb]. rewrite Base_idempotent.
  destruct (path.Match pat (path.Base fname)) as [include [e|]]; [reflexivity|].
  destruct include; cbn [negb]; [reflexivity|exact IH].
Qed.

(** A trigger whose include patterns contain no path separator does not
    see directories: [match] gives for a file what it gives for its base
    name, also when exclude patterns contain a separator. *)
Theorem slash_free_includes_ignore_directories (tr : TriggerConfig) (fname : string) :
  Forall (fun pat => has_byte slash pat = false) (Includes tr) ->
  match_ tr fname = match_ tr (path.Base fname).
Proof. apply match_includes_base. Qed.

Lemma slash_free_includes_ignore_directories_witness :
  match_ lint_trigger_flat "vendor/lib/a.go" = match_ lint_trigger_flat "a.go".
Proof.
  apply (slash_free_includes_ignore_directories lint_trigger_flat "vendor/lib/a.go").
  repeat constructor.
Defined.

(** ** Validation and the command *)



(** ** The whole command *)

Section CommandFacts.

Variable E : Type.
Variable File : Type.
Variable os_Open : string -> E + File.
Variable Decode : File -> E + PreflightConfig.
Variable git : git_sources E.
Variable BashQuote : list string -> list string.
Variable cmdRun : nat -> list string -> bool.

(** When [runPreflight] gets as far as the triggers, the configuration
    is a validated one and the changed files are sorted.  So the two
    fatal exits inside the trigger loop, for an error of [match] and for
    an input type other than args, are never taken: the run ends with
    success, with failure exactly when a spawned subprocess failed, or,
    before any event, with the fatal error of a requested name that the
    configuration does not have.  Each subprocess gets the command tokens
    of its trigger followed by the matched files in sorted order. *)
Theorem runPreflightCommand_outcomes
  (configPath commitHash : string) (dryRun verbose : bool) (triggerNames : list string)
  (events : list (TriggerConfig * event)) (out : outcome) :
  runPreflightCommand E File os_Open Decode git BashQuote cmdRun
                      configPath commitHash dryRun verbose triggerNames = Ran events out ->
  (out = ExitSuccess \/ out = ExitFailure \/
   exists n, out = Fatal (ErrNoSuchTrigger n) /\ n ∈ triggerNames /\ events = []) /\
  (out = ExitFailure <-> exists tr cmdArgs, In (tr, EvSpawn cmdArgs true) events) /\
  (forall tr cmdArgs failed, In (tr, EvSpawn cmdArgs failed) events ->
     exists fnames,
       cmdArgs = Cmd tr ++ fnames /\ fnames <> [] /\
       StronglySorted gosort.string_le fnames /\
       forall f, f ∈ fnames -> match_ tr f = (true, None)).
Proof.
  unfold runPreflightCommand.
  destruct (readConfig E File os_Open Decode configPath) as [e|cfg] eqn:Hr; [discriminate|].
  apply readConfig_inr in Hr.
  destruct (queryChangedFiles E git commitHash) as [e|files]; [discriminate|].
  set (changed := gosort.Strings files).
  destruct (runPreflight BashQuote cmdRun changed dryRun verbose cfg triggerNames)
    as [evs o] eqn:Hrun.
  intros [= <- <-].
  assert (forall tr cmdArgs failed, In (tr, EvSpawn cmdArgs failed) evs ->
            exists fnames,
              cmdArgs = Cmd tr ++ fnames /\ fnames <> [] /\
              StronglySorted gosort.string_le fnames /\
              forall f, f ∈ fnames -> match_ tr f = (true, None)) as Hargs.
  { intros tr cmdArgs failed Hin.
    replace evs with (fst (runPreflight BashQuote cmdRun changed dryRun verbose cfg triggerNames))
      in Hin by (rewrite Hrun; reflexivity).
    apply spawn_arguments in Hin as (Ha & Hne & Hmem).
    exists (matched_files tr changed). split; [exact Ha|]. split; [exact Hne|]. split.
    - eapply StronglySorted_sublist; [apply matched_files_sublist|apply Strings_sorted].
    - intros f Hf. apply Hmem, Hf. }
  destruct (selectTriggers cfg triggerNames) as [e|en] eqn:Hs.
  - unfold runPreflight in Hrun. rewrite Hs in Hrun. injection Hrun as <- <-.
    apply selectTriggers_inl in Hs as (n & -> & Hn & _).
    split; [right; right; exists n; auto|]. split; [|exact Hargs].
    split; [discriminate|]. intros (tr & args & []).
  - apply selectTriggers_inr in Hs as [Hknown _].
    rewrite (runPreflight_validated BashQuote cmdRun changed verbose dryRun cfg triggerNames
               Hr Hknown) in Hrun.
    injection Hrun as <- <-. rewrite <- any_failed_In.
    split; [|split; [|exact Hargs]]; destruct (any_failed _); auto.
    + split; congruence.
    + split; congruence.
Qed.

End CommandFacts.

(** ** Witnesses on the sample environment *)

Lemma readConfig_returns_well_formed_witness :
  readConfig unit string sample_open sample_decode ".git-preflight" = inr sample_config /\
  NoDup (config_names sample_config).
Proof.
  assert (readConfig unit string sample_open sample_decode ".git-preflight" =
          inr sample_config) as Hr by (vm_compute; reflexivity).
  split; [exact Hr|].
  apply (readConfig_returns_well_formed unit string sample_open sample_decode
           ".git-preflight" sample_config Hr).
Defined.

Lemma runPreflightCommand_outcomes_witness :
  runPreflightCommand unit string sample_open sample_decode sample_git
    sample_quote first_fails ".git-preflight" EmptyString false false [] =
  Ran [(lint_trigger, EvSpawn ["golint"; "main.go"] true);
       (docs_trigger, EvSpawn ["mdfmt"; "-w"; "README.md"] false)] ExitFailure /\
  (ExitFailure = ExitFailure <->
   exists tr cmdArgs,
     In (tr, EvSpawn cmdArgs true)
        [(lint_trigger, EvSpawn ["golint"; "main.go"] true);
         (docs_trigger, EvSpawn ["mdfmt"; "-w"; "README.md"] false)]).
Proof.
  assert (runPreflightCommand unit string sample_open sample_decode sample_git
            sample_quote first_fails ".git-preflight" EmptyString false false [] =
          Ran [(lint_trigger, EvSpawn ["golint"; "main.go"] true);
               (docs_trigger, EvSpawn ["mdfmt"; "-w"; "README.md"] false)] ExitFailure)
    as Hrun by (vm_compute; reflexivity).
  split; [exact Hrun|].
  apply (runPreflightCommand_outcomes unit string sample_open sample_decode sample_git
           sample_quote first_fails ".git-preflight" EmptyString false false [] _ _ Hrun).
Defined.

(** ** [Clean] ends within its fuel *)

Lemma copy_element_shorter path : forall out out' path',
  path_dir.copy_element path out = (out', path') -> len path' <= len path.
Proof.
  induction path as [|c rest IH]; intros out out' path'; cbn [path_dir.copy_element].
  { intros [= <- <-]. lia. }
  destruct (is_byte c slash); [intros [= <- <-]; lia|].
  intros H. apply IH in H. simpl. lia.
Qed.

Lemma Clean_loop_total fuel : forall rooted path out dotdot,
  len path < fuel -> is_Some (path_dir.Clean_loop fuel rooted path out dotdot).
Proof.
  induction fuel as [|fuel IH]; intros rooted path out dotdot Hlen; [lia|].
  cbn [path_dir.Clean_loop]. destruct path as [|c rest]; [eauto|]. simpl in Hlen.
  destruct (is_byte c slash) eqn:Hc; [apply IH; lia|].
  destruct (is_byte c "." && (is_empty rest || head_is slash rest)); [apply IH; lia|].
  assert (len (drop 1 rest) < fuel) as Hd by (rewrite drop_length; lia).
  destruct (is_byte c "." && head_is "." rest && _).
  { destruct (Nat.ltb dotdot (length out)); [apply IH, Hd|].
    destruct (negb rooted); apply IH, Hd. }
  destruct (path_dir.copy_element (String c rest) _) as [out' path'] eqn:Hcp.
  cbn [path_dir.copy_element] in Hcp. rewrite Hc in Hcp.
  apply copy_element_shorter in Hcp. apply IH. lia.
Qed.

(** ** The changed files as a set *)

(** Without a commit hash the changed-file list is a function of the set
    of the reported paths: change sources that report the same paths, in
    any order, any number of times and from any of the three sources,
    give the same list. *)
Theorem changedFiles_of_the_set
  (commitFiles commitFiles' : list string)
  (committed unstaged staged committed' unstaged' staged' : list string) :
  (forall f : string,
     f ∈ committed \/ f ∈ unstaged \/ f ∈ staged <->
     f ∈ committed' \/ f ∈ unstaged' \/ f ∈ staged') ->
  changedFiles EmptyString commitFiles committed unstaged staged =
  changedFiles EmptyString commitFiles' committed' unstaged' staged'.
Proof.
  intros Hsame. unfold changedFiles, unsortedChangedFiles. cbn [is_empty negb].
  apply Strings_order_irrelevant. apply NoDup_Permutation; try apply stringSet2Slice_NoDup.
  intros f. rewrite !stringSet2Slice_elem, !changedFileSet_lookup. apply Hsame.
Qed.

Lemma changedFiles_of_the_set_witness :
  changedFiles EmptyString [] ["b.go"; "a.go"] ["a.go"] [] =
  changedFiles EmptyString ["x"] [] ["a.go"; "a.go"] ["b.go"].
Proof.
  apply changedFiles_of_the_set. intros f.
  rewrite !elem_of_cons, !elem_of_nil. tauto.
Defined.

(** ** More changed files *)




